(** * Verification of the Syndigo HTTP client ([api_integration.py])

    The development embeds the retry/backoff helpers and the request
    executor of [SyndigoClient] and settles the properties that the
    design document states about them.

    Modelling conventions.
    - A Python [int] is a [Z].  A Python [float] is an IEEE-754 binary64
      value, a [spec_float] with precision 53 and maximal exponent 1024;
      the arithmetic is the correctly rounded one of [SpecFloat].
    - A Python exception is a record of its class and of [str(e)];
      fallible expressions return a [result].
    - The outside world (the builtin [float()] on strings, [uuid.uuid4],
      [random.random], the httpx transport) is a record of oracles, each
      indexed by the number of calls made so far.  The executor runs in a
      state-and-exception monad over the oracle cursors and a trace of the
      observable effects (requests sent, delays slept).
    - [kvlog] only writes to the log stream; telemetry is not part of the
      trace.  [time.sleep] is a total effect that records its argument.
    - The httpx objects ([httpx.Timeout], [httpx.Client] and its
      credentials) belong to the transport and are not modelled. *)

From Stdlib Require Import ZArith Lia Ascii String SpecFloat.
From stdpp Require Import base option list strings gmap pretty.

Open Scope Z_scope.

(** ** Python exceptions and fallible results *)

Inductive exc_class :=
  | ValueError
  | OverflowError
  | RuntimeError
  | OtherError (name : string).

Record py_exception := PyExc { exc_type : exc_class; exc_str : string }.

Inductive result (A : Type) :=
  | Ok (a : A)
  | Raise (e : py_exception).
Arguments Ok {A} a.
Arguments Raise {A} e.

#[global] Instance exc_class_eq_dec : EqDecision exc_class.
Proof. solve_decision. Defined.

#[global] Instance py_exception_eq_dec : EqDecision py_exception.
Proof. solve_decision. Defined.

#[global] Instance spec_float_eq_dec : EqDecision spec_float.
Proof. solve_decision. Defined.

(** ** binary64 arithmetic *)

Module F64.
Definition prec : Z := 53.
Definition emax : Z := 1024.

(** [of_dyadic m e] is the binary64 value nearest to [m * 2^e]. *)
Definition of_dyadic (m e : Z) : spec_float :=
  binary_normalize prec emax m e false.

Definition mul : spec_float -> spec_float -> spec_float := SFmul prec emax.
Definition add : spec_float -> spec_float -> spec_float := SFadd prec emax.
Definition sub : spec_float -> spec_float -> spec_float := SFsub prec emax.
Definition div : spec_float -> spec_float -> spec_float := SFdiv prec emax.
Definition ltb : spec_float -> spec_float -> bool := SFltb.
Definition leb : spec_float -> spec_float -> bool := SFleb.

Definition is_finite (x : spec_float) : bool :=
  match x with
  | S754_zero _ | S754_finite _ _ _ => true
  | _ => false
  end.
End F64.

Arguments F64.of_dyadic : simpl never.
Arguments F64.mul : simpl never.
Arguments F64.add : simpl never.
Arguments F64.sub : simpl never.
Arguments F64.div : simpl never.

(** The float literals of the source. *)
Definition f0_5 : spec_float := Eval vm_compute in F64.of_dyadic 1 (-1).
Definition f1_5 : spec_float := Eval vm_compute in F64.of_dyadic 3 (-1).
Definition f4_0 : spec_float := Eval vm_compute in F64.of_dyadic 4 0.
Definition f1000 : spec_float := Eval vm_compute in F64.of_dyadic 1000 0.

(** [float(n)] for an [int], as done implicitly by [float * int] and
    [int / float]: round to nearest even, [OverflowError] when the result
    is out of range. *)
Definition float_of_int (n : Z) : result spec_float :=
  match F64.of_dyadic n 0 with
  | S754_infinity _ =>
      Raise (PyExc OverflowError "int too large to convert to float")
  | x => Ok x
  end.

(** [int(x)] for a [float]: truncation toward zero. *)
Definition int_of_float (x : spec_float) : result Z :=
  match x with
  | S754_nan =>
      Raise (PyExc ValueError "cannot convert float NaN to integer")
  | S754_infinity _ =>
      Raise (PyExc OverflowError "cannot convert float infinity to integer")
  | S754_zero _ => Ok 0
  | S754_finite s m e =>
      let a := Z.shiftl (Z.pos m) e in
      Ok (if s then - a else a)
  end.

(** A Python number: [2 ** n] is an [int] for [n >= 0] and a [float]
    otherwise. *)
Inductive number :=
  | PyInt (n : Z)
  | PyFloat (x : spec_float).

Definition pow2 (n : Z) : number :=
  if 0 <=? n then PyInt (2 ^ n) else PyFloat (F64.of_dyadic 1 n).

(** [x * v] for a float [x]: an [int] operand is converted first. *)
Definition float_mul_number (x : spec_float) (v : number) : result spec_float :=
  match v with
  | PyInt n =>
      match float_of_int n with
      | Ok y => Ok (F64.mul x y)
      | Raise e => Raise e
      end
  | PyFloat y => Ok (F64.mul x y)
  end.

(** [min(a, b)] on floats: [b] when [b < a], otherwise the first
    argument. *)
Definition float_min (a b : spec_float) : spec_float :=
  if F64.ltb b a then b else a.

(** ** Strings *)

Definition slash : ascii := "/"%char.

Fixpoint lstrip (c : ascii) (s : string) : string :=
  match s with
  | String a s' => if Ascii.eqb a c then lstrip c s' else s
  | EmptyString => EmptyString
  end.

Fixpoint rstrip (c : ascii) (s : string) : string :=
  match s with
  | String a s' =>
      match rstrip c s' with
      | EmptyString => if Ascii.eqb a c then EmptyString else String a EmptyString
      | t => String a t
      end
  | EmptyString => EmptyString
  end.

Definition ascii_map (lo hi : nat) (shift : nat -> nat) (a : ascii) : ascii :=
  let n := nat_of_ascii a in
  if (Nat.leb lo n && Nat.leb n hi)%bool then ascii_of_nat (shift n) else a.

(** [str.upper] and [str.lower], on ASCII letters. *)
Fixpoint string_map (f : ascii -> ascii) (s : string) : string :=
  match s with
  | String a s' => String (f a) (string_map f s')
  | EmptyString => EmptyString
  end.

Definition upper : string -> string :=
  string_map (ascii_map 97 122 (fun n => (n - 32)%nat)).

Definition lower : string -> string :=
  string_map (ascii_map 65 90 (fun n => (n + 32)%nat)).

(** Truthiness of a [str]. *)
Definition truthy (s : string) : bool :=
  match s with EmptyString => false | _ => true end.

Fixpoint join (sep : string) (l : list string) : string :=
  match l with
  | [] => ""
  | [x] => x
  | x :: l' => x +:+ sep +:+ join sep l'
  end.

(** ** HTTP data *)

(** An opaque JSON-serialisable value ([Any]), carried by its text. *)
Definition Any : Type := string.

(** [httpx.Response], as far as the client reads it. *)
Record Response := mkResponse {
  status_code : Z;
  resp_headers : list (string * string);
  content : string;
}.

(** [httpx.Headers.get]: the lookup ignores case, and several fields of
    the same name are joined with a comma. *)
Definition headers_get (hs : list (string * string)) (key : string) : option string :=
  match filter (fun kv => bool_decide (lower kv.1 = lower key)) hs with
  | [] => None
  | kvs => Some (join ", " (kvs.*2))
  end.

(** The keyword arguments of one [self._client.request(...)] call. *)
Record Request := mkRequest {
  rq_method : string;
  rq_url : string;
  rq_params : option Any;
  rq_json : option Any;
  rq_headers : gmap string string;
}.

(** What one physical attempt yields: a response, or an exception raised
    by the transport. *)
Inductive Outcome :=
  | Responded (r : Response)
  | Failed (e : py_exception).

(** ** The world and the executor's monad *)

Record World := mkWorld {
  (** builtin [float(s)] on a string; [None] is [ValueError] *)
  float_of_str : string -> option spec_float;
  (** [str(uuid.uuid4())], by draw *)
  uuid4 : nat -> string;
  (** [random.random()], by draw *)
  random : nat -> spec_float;
  (** [httpx.Client.request], by call *)
  transport : nat -> Request -> Outcome;
}.

Inductive Event :=
  | Sent (rq : Request)
  | Slept (delay : spec_float).

Record State := mkState {
  uuid_ix : nat;
  rand_ix : nat;
  send_ix : nat;
  trace : list Event;
}.

Definition M (A : Type) : Type := State -> result A * State.

#[global] Instance M_ret : MRet M := fun A a st => (Ok a, st).

#[global] Instance M_bind : MBind M := fun A B f m st =>
  match m st with
  | (Ok a, st') => f a st'
  | (Raise e, st') => (Raise e, st')
  end.

Definition raise {A} (e : py_exception) : M A := fun st => (Raise e, st).

Definition lift {A} (r : result A) : M A := fun st => (r, st).

Definition emit (ev : Event) : M unit := fun st =>
  (Ok tt, mkState (uuid_ix st) (rand_ix st) (send_ix st) (trace st ++ [ev])).

(** ** Retry / backoff helpers *)

Definition RETRYABLE_STATUS : gset Z := {[ 429; 502; 503; 504 ]}.
Definition NON_RETRYABLE_STATUS : gset Z := {[ 400; 401; 403; 404; 409; 422 ]}.

Definition is_retryable (status_code : option Z) (exc : option py_exception) : bool :=
  match exc with
  | Some _ => true
  | None =>
      match status_code with
      | Some s => bool_decide (s ∈ RETRYABLE_STATUS)
      | None => false
      end
  end.

(** [exp = min(cap, base * (2 ** (attempt - 1)))]. *)
Definition backoff_exp (attempt : Z) (base cap : spec_float) : result spec_float :=
  match float_mul_number base (pow2 (attempt - 1)) with
  | Ok x => Ok (float_min cap x)
  | Raise e => Raise e
  end.

(** [a + (b - a) * u], the body of [random.uniform(a, b)] for the draw
    [u] of [random.random()]. *)
Definition uniform_at (a b u : spec_float) : spec_float :=
  F64.add a (F64.mul (F64.sub b a) u).

(** ** The client *)

Record SyndigoClient := mkClient {
  base_url : string;
  run_id : string;
  max_attempts : Z;
  user_agent : string;
}.

Section Executor.
Context (w : World).

Definition draw_uuid4 : M string := fun st =>
  (Ok (uuid4 w (uuid_ix st)),
   mkState (S (uuid_ix st)) (rand_ix st) (send_ix st) (trace st)).

Definition draw_random : M spec_float := fun st =>
  (Ok (random w (rand_ix st)),
   mkState (uuid_ix st) (S (rand_ix st)) (send_ix st) (trace st)).

Definition uniform (a b : spec_float) : M spec_float :=
  u ← draw_random; mret (uniform_at a b u).

Definition backoff_delay (attempt : Z) (base cap : spec_float) : M spec_float :=
  exp ← lift (backoff_exp attempt base cap);
  uniform (F64.mul exp f0_5) (F64.mul exp f1_5).

Definition sleep (delay : spec_float) : M unit := emit (Slept delay).

(** One call of the transport: the request is observed, the outcome is
    the oracle's. *)
Definition send (rq : Request) : M Outcome := fun st =>
  (Ok (transport w (send_ix st) rq),
   mkState (uuid_ix st) (rand_ix st) (S (send_ix st)) (trace st ++ [Sent rq])).

(** [SyndigoClient.__init__]; the timeout and the credentials go to the
    transport and are not kept here. *)
Definition init (base_url0 : string) (run_id0 : option string)
    (max_attempts0 : Z) (user_agent0 : string) : M SyndigoClient :=
  rid ← match run_id0 with
        | Some r => if truthy r then mret r else draw_uuid4
        | None => draw_uuid4
        end;
  mret (mkClient (rstrip slash base_url0) rid (Z.max 1 max_attempts0) user_agent0).

(** The header dictionary of one attempt (lines 81-90). *)
Definition out_headers (c : SyndigoClient) (request_id : string)
    (idempotency_key : option string)
    (headers : option (gmap string string)) : gmap string string :=
  let h0 : gmap string string :=
    <["Accept" := "application/json"]>
      (<["X-Run-ID" := run_id c]>
        (<["X-Request-ID" := request_id]>
          (<["User-Agent" := user_agent c]> ∅))) in
  let h1 :=
    match idempotency_key with
    | Some k => if truthy k then <["Idempotency-Key" := k]> h0 else h0
    | None => h0
    end in
  match headers with
  | Some h => h ∪ h1
  | None => h1
  end.

(** Retry-After handling on a retryable status (lines 115-121): the
    milliseconds read from the header, [0] where there is none.  Only
    [ValueError] is caught. *)
Definition retry_after_ms_of (r : Response) : result Z :=
  if bool_decide (status_code r ∈ RETRYABLE_STATUS) then
    match headers_get (resp_headers r) "Retry-After" with
    | Some ra =>
        if truthy ra then
          match float_of_str w ra with
          | Some x =>
              match int_of_float (F64.mul x f1000) with
              | Ok ms => Ok ms
              | Raise e =>
                  if bool_decide (exc_type e = ValueError) then Ok 0 else Raise e
              end
          | None => Ok 0
          end
        else Ok 0
    | None => Ok 0
    end
  else Ok 0.

(** How the [try] statement of one attempt ends. *)
Inductive TryExit :=
  | Return (resp : Response)
  | FallThrough (resp : option Response) (status : option Z)
                (exc : option py_exception) (retry_after_ms : Z).

(** Where the [try] statement (lines 97-174) ends for the outcome [o] of
    the transport; [resp0] is the value of [resp] before the attempt. *)
Definition try_exit (o : Outcome) (resp0 : option Response) : TryExit :=
  match o with
  | Failed e => FallThrough resp0 None (Some e) 0
  | Responded resp =>
      let status := status_code resp in
      match retry_after_ms_of resp with
      | Raise e => FallThrough (Some resp) (Some status) (Some e) 0
      | Ok retry_after_ms =>
          if bool_decide (200 ≤ status < 300) then Return resp
          else if bool_decide (status ∈ NON_RETRYABLE_STATUS) then Return resp
          else FallThrough (Some resp) (Some status) None retry_after_ms
      end
  end.

Definition try_attempt (rq : Request) (resp0 : option Response) : M TryExit :=
  o ← send rq; mret (try_exit o resp0).

Definition str_of_exc (exc : option py_exception) : string :=
  match exc with
  | Some e => exc_str e
  | None => "None"
  end.

(** The delay before a retry (lines 183-186). *)
Definition next_delay (retry_after_ms attempt : Z) : M spec_float :=
  if 0 <? retry_after_ms then
    x ← lift (float_of_int (Z.min 10000 retry_after_ms));
    mret (F64.div x f1000)
  else backoff_delay attempt f0_5 f4_0.

(** How one iteration of [while True] ends. *)
Inductive LoopExit :=
  | Stop (resp : Response)
  | Again (resp : option Response).

(** The retry decision and the delay (lines 176-199). *)
Definition retry_decision (c : SyndigoClient) (attempt : Z)
    (resp : option Response) (status : option Z)
    (exc : option py_exception) (retry_after_ms : Z) : M LoopExit :=
  if (max_attempts c <=? attempt) || negb (is_retryable status exc) then
    match resp with
    | Some r => mret (Stop r)
    | None =>
        raise (PyExc RuntimeError
                 ("HTTP call failed without response: " +:+ str_of_exc exc))
    end
  else
    delay ← next_delay retry_after_ms attempt;
    sleep delay;;
    mret (Again resp).

(** The request of one attempt, for the trace identifier [request_id]. *)
Definition attempt_request (c : SyndigoClient) (method url : string)
    (params json_body : option Any) (headers : option (gmap string string))
    (idempotency_key : option string) (request_id : string) : Request :=
  mkRequest (upper method) url params json_body
    (out_headers c request_id idempotency_key headers).

(** The body of [while True] (lines 80-199). *)
Definition iteration (c : SyndigoClient) (method url : string)
    (params json_body : option Any) (headers : option (gmap string string))
    (idempotency_key : option string)
    (attempt : Z) (resp0 : option Response) : M LoopExit :=
  request_id ← draw_uuid4;
  t ← try_attempt (attempt_request c method url params json_body headers
                     idempotency_key request_id) resp0;
  match t with
  | Return resp => mret (Stop resp)
  | FallThrough resp status exc retry_after_ms =>
      retry_decision c attempt resp status exc retry_after_ms
  end.

(** The [while True] loop, by fuel; [None] is fuel exhaustion. *)
Fixpoint request_loop (fuel : nat) (c : SyndigoClient) (method url : string)
    (params json_body : option Any) (headers : option (gmap string string))
    (idempotency_key : option string)
    (attempt : Z) (resp : option Response) (st : State)
    : option (result Response * State) :=
  match fuel with
  | O => None
  | S fuel' =>
      match iteration c method url params json_body headers idempotency_key
              attempt resp st with
      | (Ok (Stop r), st') => Some (Ok r, st')
      | (Ok (Again resp'), st') =>
          request_loop fuel' c method url params json_body headers
            idempotency_key (attempt + 1) resp' st'
      | (Raise e, st') => Some (Raise e, st')
      end
  end.

(** [SyndigoClient.request]. *)
Definition request (c : SyndigoClient) (method path : string)
    (params json_body : option Any) (headers : option (gmap string string))
    (idempotency_key : option string) (st : State)
    : option (result Response * State) :=
  let url := base_url c +:+ "/" +:+ lstrip slash path in
  request_loop (Z.to_nat (Z.max 1 (max_attempts c))) c method url
    params json_body headers idempotency_key 1 None st.

End Executor.

(** ** The decision of one attempt

    The executor classifies an attempt by three tests in sequence: the
    2xx test (line 142), the non-retryable set (line 157) and
    [is_retryable] (line 177).  [classify] is that sequence as one
    function. *)

Inductive Classification :=
  | Success
  | NonRetryable
  | Retryable.

Definition classify (status : option Z) (exc : option py_exception) : Classification :=
  match exc, status with
  | None, Some s =>
      if bool_decide (200 ≤ s < 300) then Success
      else if bool_decide (s ∈ NON_RETRYABLE_STATUS) then NonRetryable
      else if is_retryable status exc then Retryable
      else NonRetryable
  | _, _ => if is_retryable status exc then Retryable else NonRetryable
  end.

(** ** Reading a trace *)

Definition sent_of (tr : list Event) : list Request :=
  omap (fun ev => match ev with Sent rq => Some rq | Slept _ => None end) tr.

Definition slept_of (tr : list Event) : list spec_float :=
  omap (fun ev => match ev with Slept d => Some d | Sent _ => None end) tr.

(** ** A concrete [float()] oracle

    [decimal_float] reads the plain decimal literals ([-12], [0.5],
    [120.]), [inf] and [nan]; the value is the quotient of the digits by
    the power of ten, as [SFdiv] rounds it.  It serves to build concrete
    worlds. *)

Definition digit_of (a : ascii) : option Z :=
  let n := nat_of_ascii a in
  if (Nat.leb 48 n && Nat.leb n 57)%bool then Some (Z.of_nat (n - 48)) else None.

(** The digits of [s] appended to [acc]; the count of digits read. *)
Fixpoint read_digits (s : string) (acc : Z) (count : nat) : option (Z * nat) :=
  match s with
  | EmptyString => Some (acc, count)
  | String a s' =>
      match digit_of a with
      | Some d => read_digits s' (10 * acc + d) (S count)
      | None => None
      end
  end.

Fixpoint split_dot (s : string) : string * option string :=
  match s with
  | EmptyString => (EmptyString, None)
  | String a s' =>
      if Ascii.eqb a "."%char then (EmptyString, Some s')
      else let '(i, f) := split_dot s' in (String a i, f)
  end.

Definition unsigned_decimal (s : string) : option spec_float :=
  let '(ip, fp) := split_dot s in
  match read_digits ip 0 0 with
  | Some (n, ni) =>
      match read_digits (default EmptyString fp) n 0 with
      | Some (m, nf) =>
          if (ni + nf =? 0)%nat then None
          else
            Some (match m with
                  | Z.pos p =>
                      SFdiv F64.prec F64.emax
                        (S754_finite false p 0)
                        (S754_finite false (Z.to_pos (10 ^ Z.of_nat nf)) 0)
                  | _ => S754_zero false
                  end)
      | None => None
      end
  | None => None
  end.

Definition unsigned_float (s : string) : option spec_float :=
  let l := lower s in
  if bool_decide (l = "inf" ∨ l = "infinity") then Some (S754_infinity false)
  else if bool_decide (l = "nan") then Some S754_nan
  else unsigned_decimal s.

Definition decimal_float (s : string) : option spec_float :=
  match s with
  | String "-" s' => SFopp <$> unsigned_float s'
  | String "+" s' => unsigned_float s'
  | _ => unsigned_float s
  end.

(** ** Auxiliary definitions for the statements *)

(** The state after the transport has been called with [rq]. *)
Definition sent_state (st : State) (rq : Request) : State :=
  mkState (uuid_ix st) (rand_ix st) (S (send_ix st)) (trace st ++ [Sent rq]).

(** The state after [time.sleep(d)]. *)
Definition slept_state (st : State) (d : spec_float) : State :=
  mkState (uuid_ix st) (rand_ix st) (send_ix st) (trace st ++ [Slept d]).

(** The state after one draw of [random.random()]. *)
Definition drawn_state (st : State) : State :=
  mkState (uuid_ix st) (S (rand_ix st)) (send_ix st) (trace st).

(** The state after one draw of [uuid.uuid4()]. *)
Definition uuid_state (st : State) : State :=
  mkState (S (uuid_ix st)) (rand_ix st) (send_ix st) (trace st).

(** The delay taken from a Retry-After hint of [ms] milliseconds:
    [min(10_000, ms) / 1000.0]. *)
Definition hint_delay (ms : Z) : spec_float :=
  F64.div (F64.of_dyadic (Z.min 10000 ms) 0) f1000.

(** The jittered delay for the capped exponential [exp] and the draw
    [u]. *)
Definition jitter (exp u : spec_float) : spec_float :=
  uniform_at (F64.mul exp f0_5) (F64.mul exp f1_5) u.

(** An attempt that the classifier sends to the retry decision as
    retryable: a transport failure, or a response with a retryable
    status. *)
Definition retryable_outcome (o : Outcome) : Prop :=
  match o with
  | Failed _ => True
  | Responded r => status_code r ∈ RETRYABLE_STATUS
  end.

(** The new requests of a call that took the trace from [tr] to [tr']. *)
Definition new_sent (tr tr' : list Event) : list Request :=
  drop (length (sent_of tr)) (sent_of tr').

(** The new delays of a call that took the trace from [tr] to [tr']. *)
Definition new_slept (tr tr' : list Event) : list spec_float :=
  drop (length (slept_of tr)) (slept_of tr').

(** All requests carry the same Idempotency-Key header (or none does). *)
Definition same_idempotency_key (reqs : list Request) : Prop :=
  ∀ rq1 rq2, rq1 ∈ reqs → rq2 ∈ reqs →
    rq_headers rq1 !! "Idempotency-Key" = rq_headers rq2 !! "Idempotency-Key".

(** Any two requests at distinct positions differ in X-Request-ID. *)
Definition distinct_request_ids (reqs : list Request) : Prop :=
  ∀ (i j : nat) rq1 rq2, i ≠ j →
    reqs !! i = Some rq1 → reqs !! j = Some rq2 →
    rq_headers rq1 !! "X-Request-ID" ≠ rq_headers rq2 !! "X-Request-ID".

(** The Idempotency-Key that the caller supplies: the entry of the extra
    headers if there is one, otherwise the non-empty key argument. *)
Definition caller_idempotency_key (headers : option (gmap string string))
    (idempotency_key : option string) : option string :=
  match headers ≫= (.!! "Idempotency-Key") with
  | Some v => Some v
  | None =>
      match idempotency_key with
      | Some k => if truthy k then Some k else None
      | None => None
      end
  end.

(** The value of [resp] after an attempt with outcome [o]. *)
Definition resp_after (o : Outcome) (resp0 : option Response) : option Response :=
  match o with
  | Responded r => Some r
  | Failed _ => resp0
  end.

(** What the call gives back when it stops after a retryable attempt
    with outcome [o]: the last response received, or the [RuntimeError]
    that quotes the transport's exception. *)
Definition final_result (o : Outcome) (resp0 : option Response) : result Response :=
  match resp_after o resp0 with
  | Some r => Ok r
  | None =>
      Raise (PyExc RuntimeError
               ("HTTP call failed without response: " +:+
                  match o with
                  | Failed e => exc_str e
                  | Responded _ => "None"
                  end))
  end.

(** The Retry-After header of [r] gives a hint of [ms] milliseconds: it
    is there, [float()] reads it, and it amounts to at least one
    millisecond. *)
Definition retry_after_hint (w : World) (r : Response) (ms : Z) : Prop :=
  ∃ ra x,
    headers_get (resp_headers r) "Retry-After" = Some ra ∧ ra ≠ "" ∧
    float_of_str w ra = Some x ∧
    int_of_float (F64.mul x f1000) = Ok ms ∧ 0 < ms.

(** The Retry-After header of [r] gives no hint: it is absent or empty,
    [float()] rejects it or reads it as NaN, or it amounts to less than a
    millisecond. *)
Definition no_retry_after_hint (w : World) (r : Response) : Prop :=
  headers_get (resp_headers r) "Retry-After" = None ∨
  headers_get (resp_headers r) "Retry-After" = Some "" ∨
  ∃ ra,
    headers_get (resp_headers r) "Retry-After" = Some ra ∧
    (float_of_str w ra = None ∨
     float_of_str w ra = Some S754_nan ∨
     ∃ x ms, float_of_str w ra = Some x ∧
             int_of_float (F64.mul x f1000) = Ok ms ∧ ms ≤ 0).

(** An attempt that is retryable and comes without a Retry-After hint. *)
Definition no_hint_outcome (w : World) (o : Outcome) : Prop :=
  match o with
  | Failed _ => True
  | Responded r => status_code r ∈ RETRYABLE_STATUS ∧ no_retry_after_hint w r
  end.

(** ** Concrete worlds *)

Definition sample_uuid (k : nat) : string := "req-" +:+ pretty k.

(** A transport that plays [script] and then repeats [rest]. *)
Definition scripted (script : list Outcome) (rest : Outcome)
    (k : nat) (rq : Request) : Outcome :=
  default rest (script !! k).

(** The world with the decimal [float()], numbered trace identifiers, the
    constant draw 0.5 and a scripted transport. *)
Definition sample_world (script : list Outcome) (rest : Outcome) : World :=
  mkWorld decimal_float sample_uuid (λ _, f0_5) (scripted script rest).

Definition st0 : State := mkState 0 0 0 [].

Definition sample_client (n : Z) : SyndigoClient :=
  mkClient "https://api.example.test/v1" "run-1" n "syndigo-integration/1.0".

Definition plain (status : Z) : Response := mkResponse status [] "".

Definition with_retry_after (status : Z) (v : string) : Response :=
  mkResponse status [("Retry-After", v)] "".

Definition timeout_exc : py_exception :=
  PyExc (OtherError "ReadTimeout") "The read operation timed out".

(** ** Mantissas for the float lemmas *)

(** [a * 2^n], as a [positive]. *)
Definition pow2_pos (n : nat) (a : positive) : positive := Nat.iter n xO a.

Definition two52 : positive := Eval vm_compute in pow2_pos 52 1.

Definition three51 : positive := Eval vm_compute in pow2_pos 51 3.

(** The capped exponential of the defaults, as a table. *)
Definition default_exp (attempt : Z) : spec_float :=
  if attempt =? 1 then F64.of_dyadic 1 (-1)
  else if attempt =? 2 then F64.of_dyadic 1 0
  else if attempt =? 3 then F64.of_dyadic 2 0
  else F64.of_dyadic 4 0.

(** ** The per-verb entry points (lines 202-215) *)

Module Client.
Section Verbs.
Context (w : World) (c : SyndigoClient).

Definition get (path : string) (params json_body : option Any)
    (headers : option (gmap string string)) (idempotency_key : option string)
    : State → option (result Response * State) :=
  request w c "GET" path params json_body headers idempotency_key.

Definition post (path : string) (params json_body : option Any)
    (headers : option (gmap string string)) (idempotency_key : option string)
    : State → option (result Response * State) :=
  request w c "POST" path params json_body headers idempotency_key.

Definition put (path : string) (params json_body : option Any)
    (headers : option (gmap string string)) (idempotency_key : option string)
    : State → option (result Response * State) :=
  request w c "PUT" path params json_body headers idempotency_key.

Definition patch (path : string) (params json_body : option Any)
    (headers : option (gmap string string)) (idempotency_key : option string)
    : State → option (result Response * State) :=
  request w c "PATCH" path params json_body headers idempotency_key.

Definition delete (path : string) (params json_body : option Any)
    (headers : option (gmap string string)) (idempotency_key : option string)
    : State → option (result Response * State) :=
  request w c "DELETE" path params json_body headers idempotency_key.

End Verbs.
End Client.

(** ** Reading a whole call *)

(** The trace of a call that sends [reqs] and sleeps [ds] in between. *)
Fixpoint alternate (reqs : list Request) (ds : list spec_float) : list Event :=
  match reqs with
  | [] => []
  | rq :: reqs' =>
      Sent rq ::
        match ds with
        | [] => []
        | d :: ds' => Slept d :: alternate reqs' ds'
        end
  end.

(** The outcomes that the requests [reqs] met: the [i]-th one is answered
    by call number [ix + i] of the transport. *)
Definition outcomes_of (w : World) (ix : nat) (reqs : list Request) : list Outcome :=
  imap (λ i rq, transport w (ix + i)%nat rq) reqs.

(** The value of [resp] after attempts with the outcomes [os], from the
    value [resp0]. *)
Definition latest_response (os : list Outcome) (resp0 : option Response)
    : option Response :=
  foldl (λ resp o, resp_after o resp) resp0 os.

(** The exception of [float(2 ** n)] for [n >= 1024]. *)
Definition overflow_exc : py_exception :=
  PyExc OverflowError "int too large to convert to float".

(** The [RuntimeError] of line 180 for the transport exception [e]. *)
Definition no_response_exc (e : py_exception) : py_exception :=
  PyExc RuntimeError ("HTTP call failed without response: " +:+ exc_str e).

(** [d] is a delay that the retry after attempt number [attempt] may
    sleep: the clamped hint of a positive number of milliseconds, or the
    jitter of the capped exponential for a draw of [random.random()]. *)
Definition delay_after (w : World) (attempt : Z) (d : spec_float) : Prop :=
  (∃ ms, 0 < ms ∧ d = hint_delay ms) ∨
  (∃ exp (k : nat), backoff_exp attempt f0_5 f4_0 = Ok exp ∧
                    d = jitter exp (random w k)).

(** [n] copies of the character [c]. *)
Fixpoint repeat_char (c : ascii) (n : nat) : string :=
  match n with
  | O => EmptyString
  | S n' => String c (repeat_char c n')
  end.

(** The headers of every attempt that do not depend on the attempt. *)
Definition stable_headers (c : SyndigoClient) (idempotency_key : option string)
    : gmap string string :=
  let h0 : gmap string string :=
    {[ "User-Agent" := user_agent c; "X-Run-ID" := run_id c;
       "Accept" := "application/json" ]} in
  match idempotency_key with
  | Some k => if truthy k then <["Idempotency-Key" := k]> h0 else h0
  | None => h0
  end.


(** ** Environment variables (lines 219-223) *)

(** [os.getenv(name, default)] on the environment [environ]. *)
Definition getenv (environ : gmap string string) (name : string)
    (default : option string) : option string :=
  match environ !! name with
  | Some v => Some v
  | None => default
  end.

(** [_env(name, required, default)]; the result may be [None] when the
    variable is not required. *)
Definition _env (environ : gmap string string) (name : string)
    (required : bool) (default : option string) : result (option string) :=
  let v := getenv environ name default in
  if required && negb (match v with Some s => truthy s | None => false end)
  then Raise (PyExc RuntimeError ("Missing env var: " +:+ name))
  else Ok v.

(** * Properties *)

(** ** The status sets *)

Lemma retryable_status_spec (s : Z) :
  s ∈ RETRYABLE_STATUS ↔ s = 429 ∨ s = 502 ∨ s = 503 ∨ s = 504.
Proof. unfold RETRYABLE_STATUS. set_unfold. tauto. Qed.

Lemma non_retryable_status_spec (s : Z) :
  s ∈ NON_RETRYABLE_STATUS ↔
  s = 400 ∨ s = 401 ∨ s = 403 ∨ s = 404 ∨ s = 409 ∨ s = 422.
Proof. unfold NON_RETRYABLE_STATUS. set_unfold. tauto. Qed.

Lemma status_sets_disjoint (s : Z) :
  s ∈ RETRYABLE_STATUS → (s ∉ NON_RETRYABLE_STATUS) ∧ ¬ (200 ≤ s < 300).
Proof.
  rewrite retryable_status_spec, non_retryable_status_spec. lia.
Qed.

Lemma map_seq_from {A} (g : nat → A) (a n : nat) :
  map (λ i, g (a + i)%nat) (seq 0 (S n)) =
  g a :: map (λ i, g (S a + i)%nat) (seq 0 n).
Proof.
  simpl. rewrite Nat.add_0_r. f_equal.
  rewrite <- List.seq_shift, List.map_map.
  apply List.map_ext. intros i. f_equal. lia.
Qed.

Lemma sent_of_app (tr1 tr2 : list Event) :
  sent_of (tr1 ++ tr2) = sent_of tr1 ++ sent_of tr2.
Proof. apply omap_app. Qed.

Lemma slept_of_app (tr1 tr2 : list Event) :
  slept_of (tr1 ++ tr2) = slept_of tr1 ++ slept_of tr2.
Proof. apply omap_app. Qed.

(** ** binary64 facts

    The facts about [SpecFloat]'s rounding that the backoff calculator
    needs: integers of at most 53 bits and powers of two convert exactly,
    [2^n] is out of range from [n = 1024] on, and the jittered sum is
    rounded within its interval. *)

(** *** Mantissas shifted left *)

Lemma pow2_pos_Z (n : nat) (a : positive) : Z.pos (pow2_pos n a) = Z.pos a * 2 ^ Z.of_nat n.
Proof.
  induction n as [|n IH].
  - simpl. lia.
  - unfold pow2_pos in *. simpl. rewrite Pos2Z.inj_xO, IH.
    rewrite Nat2Z.inj_succ, Z.pow_succ_r by lia. lia.
Qed.

Lemma pow2_pos_add (n m : nat) (a : positive) :
  pow2_pos n (pow2_pos m a) = pow2_pos (n + m) a.
Proof. unfold pow2_pos. by rewrite Nat.iter_add. Qed.

Lemma pos_iter_xO (a q : positive) : Pos.iter xO a q = pow2_pos (Pos.to_nat q) a.
Proof. unfold pow2_pos. apply Pos2Nat.inj_iter. Qed.

Lemma pow2_pos_plus (n : nat) (a b : positive) :
  (pow2_pos n a + pow2_pos n b)%positive = pow2_pos n (a + b).
Proof.
  apply Pos2Z.inj. rewrite Pos2Z.inj_add, !pow2_pos_Z, Pos2Z.inj_add. lia.
Qed.

Lemma pow2_pos_mul (n : nat) (a b : positive) :
  (pow2_pos n a * b)%positive = pow2_pos n (a * b).
Proof.
  apply Pos2Z.inj. rewrite Pos2Z.inj_mul, !pow2_pos_Z, Pos2Z.inj_mul. lia.
Qed.

(** *** The number of bits of a mantissa *)

Lemma digits2_pow2_pos (n : nat) (a : positive) :
  Z.pos (digits2_pos (pow2_pos n a)) = Z.pos (digits2_pos a) + Z.of_nat n.
Proof.
  induction n as [|n IH].
  - simpl. lia.
  - unfold pow2_pos in *. simpl. rewrite Pos2Z.inj_succ, IH. lia.
Qed.

Lemma digits2_pos_bounds (p : positive) :
  2 ^ (Z.pos (digits2_pos p) - 1) ≤ Z.pos p < 2 ^ Z.pos (digits2_pos p).
Proof.
  assert (Hstep : ∀ d x : Z, 0 < d → 2 ^ (d - 1) ≤ x < 2 ^ d →
            ∀ y, 2 * x ≤ y ≤ 2 * x + 1 → 2 ^ (Z.succ d - 1) ≤ y < 2 ^ Z.succ d).
  { intros d x Hd Hx y Hy.
    replace (Z.succ d - 1) with (Z.succ (d - 1)) by lia.
    rewrite (Z.pow_succ_r 2 (d - 1)), (Z.pow_succ_r 2 d) by lia. lia. }
  induction p as [p IH|p IH|].
  - change (digits2_pos p~1) with (Pos.succ (digits2_pos p)).
    rewrite Pos2Z.inj_succ. apply (Hstep _ (Z.pos p)); [lia|done|lia].
  - change (digits2_pos p~0) with (Pos.succ (digits2_pos p)).
    rewrite Pos2Z.inj_succ. apply (Hstep _ (Z.pos p)); [lia|done|lia].
  - simpl. lia.
Qed.

Lemma digits2_pos_unique (p : positive) (d : Z) :
  2 ^ (d - 1) ≤ Z.pos p < 2 ^ d → Z.pos (digits2_pos p) = d.
Proof.
  intros [Hlo Hhi]. pose proof (digits2_pos_bounds p) as [Hlo' Hhi'].
  assert (0 < d).
  { destruct (Z.lt_ge_cases 0 d) as [|Hd]; [done|].
    assert (2 ^ d ≤ 2 ^ 0) by (apply Z.pow_le_mono_r; lia). simpl in *. lia. }
  assert (d - 1 < Z.pos (digits2_pos p)).
  { apply (Z.pow_lt_mono_r_iff 2); [lia|lia|lia]. }
  assert (Z.pos (digits2_pos p) - 1 < d).
  { apply (Z.pow_lt_mono_r_iff 2); [lia|lia|lia]. }
  lia.
Qed.

(** *** Shifting right

    A 53-bit mantissa that was shifted left by [k] comes back exactly;
    a 54-bit mantissa loses one bit. *)

Lemma iter_pos_nat {A} (f : A → A) (n : positive) (x : A) :
  SpecFloat.iter_pos f n x = Nat.iter (Pos.to_nat n) f x.
Proof.
  revert x. induction n as [n IH|n IH|]; intros x.
  - change (SpecFloat.iter_pos f n~1 x)
      with (SpecFloat.iter_pos f n (SpecFloat.iter_pos f n (f x))).
    rewrite !IH, Pos2Nat.inj_xI.
    replace (S (2 * Pos.to_nat n)) with (Pos.to_nat n + (Pos.to_nat n + 1))%nat by lia.
    by rewrite !Nat.iter_add.
  - change (SpecFloat.iter_pos f n~0 x)
      with (SpecFloat.iter_pos f n (SpecFloat.iter_pos f n x)).
    rewrite !IH, Pos2Nat.inj_xO.
    replace (2 * Pos.to_nat n)%nat with (Pos.to_nat n + Pos.to_nat n)%nat by lia.
    by rewrite Nat.iter_add.
  - reflexivity.
Qed.

Lemma shr_pow2_pos (n : nat) (a : positive) :
  Nat.iter n shr_1 (Build_shr_record (Z.pos (pow2_pos n a)) false false) =
  Build_shr_record (Z.pos a) false false.
Proof.
  induction n as [|n IH]; [done|].
  rewrite Nat.iter_succ_r. unfold pow2_pos. simpl. apply IH.
Qed.

Lemma shr_fexp_shift (m : positive) (k : nat) (e : Z) :
  Z.pos (digits2_pos m) = 53 → -1074 ≤ e + Z.of_nat k →
  shr_fexp F64.prec F64.emax (Z.pos (pow2_pos k m)) e loc_Exact =
  (Build_shr_record (Z.pos m) false false, e + Z.of_nat k).
Proof.
  intros Hm He. unfold shr_fexp, Zdigits2.
  replace (fexp F64.prec F64.emax (Z.pos (digits2_pos (pow2_pos k m)) + e) - e)
    with (Z.of_nat k).
  2:{ rewrite digits2_pow2_pos, Hm. unfold fexp, emin, F64.prec, F64.emax. lia. }
  destruct k as [|k].
  - simpl. f_equal. lia.
  - change (Z.of_nat (S k)) with (Z.pos (Pos.of_succ_nat k)) at 1.
    unfold shr, shr_record_of_loc.
    rewrite iter_pos_nat, SuccNat2Pos.id_succ, shr_pow2_pos.
    f_equal.
Qed.

Lemma shr_fexp_53 (m : positive) (e : Z) :
  Z.pos (digits2_pos m) = 53 → -1074 ≤ e →
  shr_fexp F64.prec F64.emax (Z.pos m) e loc_Exact =
  (Build_shr_record (Z.pos m) false false, e).
Proof.
  intros Hm He. pose proof (shr_fexp_shift m 0 e Hm ltac:(lia)) as Hs.
  change (pow2_pos 0 m) with m in Hs. by rewrite Hs, Z.add_0_r.
Qed.

Lemma shr_fexp_54 (t : positive) (e : Z) :
  Z.pos (digits2_pos t) = 54 → -1074 ≤ e + 1 →
  shr_fexp F64.prec F64.emax (Z.pos t) e loc_Exact =
  (shr_1 (Build_shr_record (Z.pos t) false false), e + 1).
Proof.
  intros Ht He. unfold shr_fexp, Zdigits2.
  replace (fexp F64.prec F64.emax (Z.pos (digits2_pos t) + e) - e) with 1
    by (rewrite Ht; unfold fexp, emin, F64.prec, F64.emax; lia).
  reflexivity.
Qed.

(** *** Rounding *)

Lemma binary_round_aux_shift (s : bool) (m : positive) (k : nat) (e : Z) :
  Z.pos (digits2_pos m) = 53 → -1074 ≤ e + Z.of_nat k →
  binary_round_aux F64.prec F64.emax s (Z.pos (pow2_pos k m)) e loc_Exact =
  if e + Z.of_nat k <=? 971 then S754_finite s m (e + Z.of_nat k)
  else S754_infinity s.
Proof.
  intros Hm He. unfold binary_round_aux.
  rewrite shr_fexp_shift by done.
  cbn [shr_m loc_of_shr_record round_nearest_even].
  pose proof (shr_fexp_shift m 0 (e + Z.of_nat k) Hm ltac:(lia)) as H0.
  change (pow2_pos 0 m) with m in H0. rewrite H0.
  cbn [shr_m]. rewrite Z.add_0_r. reflexivity.
Qed.

Lemma binary_round_shift (s : bool) (m : positive) (k : nat) (e : Z) :
  Z.pos (digits2_pos m) = 53 → -1074 ≤ e + Z.of_nat k ≤ 971 →
  binary_round F64.prec F64.emax s (pow2_pos k m) e =
  S754_finite s m (e + Z.of_nat k).
Proof.
  intros Hm He. unfold binary_round, shl_align.
  replace (fexp F64.prec F64.emax (Z.pos (digits2_pos (pow2_pos k m)) + e))
    with (e + Z.of_nat k).
  2:{ rewrite digits2_pow2_pos, Hm. unfold fexp, emin, F64.prec, F64.emax. lia. }
  destruct (e + Z.of_nat k - e) eqn:Hk; try lia;
    rewrite binary_round_aux_shift by (done || lia);
    by destruct (Z.leb_spec (e + Z.of_nat k) 971); [|lia].
Qed.

(** Rounding away one bit: the mantissa is halved to the nearest, ties
    to even. *)
Lemma binary_round_54 (s : bool) (t : positive) (e : Z) :
  Z.pos (digits2_pos t) = 54 → Z.pos t + 1 < 2 ^ 54 → -1074 ≤ e + 1 ≤ 971 →
  ∃ m', binary_round F64.prec F64.emax s t e = S754_finite s m' (e + 1) ∧
        Z.pos t - 1 ≤ 2 * Z.pos m' ≤ Z.pos t + 1.
Proof.
  intros Ht Hlt He.
  pose proof (digits2_pos_bounds t) as [Hlo _]. rewrite Ht in Hlo.
  change (2 ^ (54 - 1)) with 9007199254740992 in Hlo.
  change (2 ^ 54) with 18014398509481984 in Hlt.
  assert (Hfin : ∀ m' : positive,
    4503599627370496 ≤ Z.pos m' < 9007199254740992 →
    (let '(mrs'', e'') := shr_fexp F64.prec F64.emax (Z.pos m') (e + 1) loc_Exact in
     match shr_m mrs'' with
     | 0 => S754_zero s
     | Z.pos m => if e'' <=? F64.emax - F64.prec then S754_finite s m e'' else S754_infinity s
     | Z.neg _ => S754_nan
     end) = S754_finite s m' (e + 1)).
  { intros m' Hm'.
    assert (Hd : Z.pos (digits2_pos m') = 53) by (apply digits2_pos_unique; simpl; lia).
    rewrite shr_fexp_53 by (done || lia). simpl shr_m.
    by destruct (Z.leb_spec (e + 1) (F64.emax - F64.prec)); [|unfold F64.emax, F64.prec in *; lia]. }
  unfold binary_round, shl_align.
  replace (fexp F64.prec F64.emax (Z.pos (digits2_pos t) + e)) with (e + 1)
    by (rewrite Ht; unfold fexp, emin, F64.prec, F64.emax; lia).
  replace (e + 1 - e) with 1 by lia.
  unfold binary_round_aux. rewrite shr_fexp_54 by (done || lia).
  destruct t as [p|p|]; [| |simpl in Ht; lia];
    cbn [shr_1 shr_m shr_r shr_s orb loc_of_shr_record round_nearest_even].
  - destruct (Z.even (Z.pos p)) eqn:Hev.
    + exists p. rewrite Hfin by lia. split; [done|lia].
    + exists (p + 1)%positive. change (Z.pos p + 1) with (Z.pos (p + 1)).
      rewrite Hfin by lia. split; [done|lia].
  - exists p. rewrite Hfin by lia. split; [done|lia].
Qed.

Lemma shl_align_fst (m : positive) (ex ex' : Z) :
  ex' ≤ ex → fst (shl_align m ex ex') = pow2_pos (Z.to_nat (ex - ex')) m.
Proof.
  intros Hle. unfold shl_align.
  destruct (ex' - ex) as [|q|q] eqn:Hq; try lia.
  - by replace (ex - ex') with 0 by lia.
  - simpl. rewrite pos_iter_xO. f_equal. lia.
Qed.

(** *** Conversions from [int] *)

(** A positive integer of at most 53 bits, scaled by a power of two in
    the normal range, is a float: the mantissa is shifted to 53 bits. *)
Lemma of_dyadic_exact (p : positive) (e : Z) :
  let d := Z.pos (digits2_pos p) in
  d ≤ 53 → -1074 ≤ e + d - 53 ≤ 971 →
  F64.of_dyadic (Z.pos p) e =
  S754_finite false (pow2_pos (Z.to_nat (53 - d)) p) (e + d - 53).
Proof.
  intros d Hd He. unfold F64.of_dyadic, binary_normalize, binary_round.
  replace (fexp F64.prec F64.emax (Z.pos (digits2_pos p) + e)) with (e + d - 53)
    by (unfold fexp, emin, F64.prec, F64.emax; lia).
  assert (Hdig : Z.pos (digits2_pos (pow2_pos (Z.to_nat (53 - d)) p)) = 53)
    by (rewrite digits2_pow2_pos; lia).
  pose proof (binary_round_aux_shift false (pow2_pos (Z.to_nat (53 - d)) p) 0
                (e + d - 53) Hdig ltac:(lia)) as Hr.
  change (pow2_pos 0 ?x) with x in Hr. simpl (Z.of_nat 0) in Hr.
  rewrite Z.add_0_r in Hr.
  destruct (Z.leb_spec (e + d - 53) 971); [|lia].
  unfold shl_align.
  destruct (e + d - 53 - e) as [|q|q] eqn:Hq; try lia.
  - replace (53 - d) with 0 in * by lia. simpl in *.
    replace e with (e + d - 53) at 1 by lia. exact Hr.
  - rewrite pos_iter_xO.
    replace (Pos.to_nat q) with (Z.to_nat (53 - d)) by lia. exact Hr.
Qed.

(** [float(2 ** n)] below the overflow. *)
Lemma of_dyadic_pow2 (n : nat) :
  (n ≤ 1023)%nat →
  F64.of_dyadic (2 ^ Z.of_nat n) 0 = S754_finite false two52 (Z.of_nat n - 52).
Proof.
  intros Hn.
  destruct (Nat.le_gt_cases n 52) as [Hle|Hgt].
  - assert (H2 : 2 ^ Z.of_nat n = Z.pos (pow2_pos n 1)) by (rewrite pow2_pos_Z; lia).
    pose proof (digits2_pow2_pos n 1) as Hd. simpl (digits2_pos 1) in Hd.
    rewrite H2, of_dyadic_exact by lia. rewrite Hd.
    rewrite pow2_pos_add. f_equal; [|lia].
    assert (Hx : (Z.to_nat (53 - (1 + Z.of_nat n)) + n)%nat = 52%nat) by lia.
    by rewrite Hx.
  - assert (H2 : 2 ^ Z.of_nat n = Z.pos (pow2_pos (n - 52) two52)).
    { unfold two52. change 4503599627370496%positive with (pow2_pos 52 1).
      rewrite pow2_pos_add. replace (n - 52 + 52)%nat with n by lia.
      rewrite pow2_pos_Z. lia. }
    rewrite H2. unfold F64.of_dyadic, binary_normalize, binary_round, shl_align.
    replace (fexp F64.prec F64.emax (Z.pos (digits2_pos (pow2_pos (n - 52) two52)) + 0))
      with (Z.of_nat (n - 52)).
    2:{ rewrite digits2_pow2_pos. unfold fexp, emin, F64.prec, F64.emax. simpl. lia. }
    destruct (Z.of_nat (n - 52) - 0) eqn:He; try lia.
    rewrite binary_round_aux_shift by (simpl; lia).
    destruct (Z.leb_spec (0 + Z.of_nat (n - 52)) 971); [|lia].
    f_equal. lia.
Qed.

Lemma of_dyadic_pow2_overflow (n : nat) :
  (1024 ≤ n)%nat → F64.of_dyadic (2 ^ Z.of_nat n) 0 = S754_infinity false.
Proof.
  intros Hn.
  assert (H2 : 2 ^ Z.of_nat n = Z.pos (pow2_pos (n - 52) (pow2_pos 52 1))).
  { unfold pow2_pos. rewrite <- Nat.iter_add.
    replace (n - 52 + 52)%nat with n by lia.
    fold (pow2_pos n 1). rewrite pow2_pos_Z. lia. }
  rewrite H2. unfold F64.of_dyadic, binary_normalize, binary_round.
  unfold shl_align.
  replace (fexp F64.prec F64.emax
             (Z.pos (digits2_pos (pow2_pos (n - 52) (pow2_pos 52 1))) + 0))
    with (Z.of_nat (n - 52)).
  2:{ rewrite digits2_pow2_pos. unfold fexp, emin, F64.prec, F64.emax. simpl. lia. }
  destruct (Z.of_nat (n - 52) - 0) eqn:He; try lia.
  rewrite binary_round_aux_shift by (simpl; lia).
  destruct (Z.leb_spec (0 + Z.of_nat (n - 52)) 971); [lia|done].
Qed.

(** The random draws: [random.random()] returns [k / 2^53] for a 53-bit
    integer [k]. *)
Lemma of_dyadic_draw (k : positive) :
  Z.pos k < 2 ^ 53 →
  let d := Z.pos (digits2_pos k) in
  d ≤ 53 ∧
  F64.of_dyadic (Z.pos k) (-53) =
  S754_finite false (pow2_pos (Z.to_nat (53 - d)) k) (d - 106).
Proof.
  intros Hk d.
  assert (Hd : d ≤ 53).
  { pose proof (digits2_pos_bounds k) as [Hlo _]. fold d in Hlo.
    destruct (Z.le_gt_cases d 53) as [|Hgt]; [done|].
    assert (2 ^ 53 ≤ 2 ^ (d - 1)) by (apply Z.pow_le_mono_r; lia). lia. }
  split; [done|]. rewrite of_dyadic_exact by (fold d; lia). fold d.
  f_equal. lia.
Qed.

Lemma float_of_int_small (n : Z) :
  1 ≤ n ≤ 10000 → float_of_int n = Ok (F64.of_dyadic n 0) ∧ F64.is_finite (F64.of_dyadic n 0) = true.
Proof.
  intros Hn. destruct n as [|p|p]; try lia.
  pose proof (digits2_pos_bounds p) as [Hlo _].
  assert (Hd : Z.pos (digits2_pos p) ≤ 53).
  { destruct (Z.le_gt_cases (Z.pos (digits2_pos p)) 53) as [|Hgt]; [done|].
    assert (2 ^ 14 ≤ 2 ^ (Z.pos (digits2_pos p) - 1)) by (apply Z.pow_le_mono_r; lia).
    change (2 ^ 14) with 16384 in *. lia. }
  unfold float_of_int. rewrite of_dyadic_exact by lia. done.
Qed.

Lemma float_of_int_hint (ms : Z) :
  0 < ms → float_of_int (Z.min 10000 ms) = Ok (F64.of_dyadic (Z.min 10000 ms) 0).
Proof. intros Hms. apply float_of_int_small. lia. Qed.

(** [float(2 ** n)] raises from [n = 1024] on. *)
Lemma float_of_int_pow2_overflow (n : Z) :
  1024 ≤ n →
  float_of_int (2 ^ n) =
  Raise (PyExc OverflowError "int too large to convert to float").
Proof.
  intros Hn. unfold float_of_int.
  rewrite <- (Z2Nat.id n) by lia.
  by rewrite of_dyadic_pow2_overflow by lia.
Qed.

(** *** Products, differences and sums around a power of two *)

(** The product of a power of two and a 53-bit float is exact. *)
Lemma mul_two52 (e1 : Z) (s : bool) (m : positive) (e : Z) :
  Z.pos (digits2_pos m) = 53 → -1074 ≤ e1 + e + 52 ≤ 971 →
  F64.mul (S754_finite false two52 e1) (S754_finite s m e) =
  S754_finite s m (e1 + e + 52).
Proof.
  intros Hm He. unfold F64.mul, SFmul. simpl xorb.
  replace (two52 * m)%positive with (pow2_pos 52 m).
  2:{ unfold two52. change 4503599627370496%positive with (pow2_pos 52 1).
      by rewrite pow2_pos_mul. }
  rewrite binary_round_aux_shift by (done || lia).
  destruct (Z.leb_spec (e1 + e + Z.of_nat 52) 971); [|lia].
  reflexivity.
Qed.

Lemma sub_hi_lo (j : Z) :
  -900 ≤ j ≤ 900 →
  F64.sub (S754_finite false three51 (j - 52)) (S754_finite false two52 (j - 53)) =
  S754_finite false two52 (j - 52).
Proof.
  intros Hj. unfold F64.sub, SFsub.
  rewrite Z.min_r by lia.
  rewrite !shl_align_fst by lia.
  rewrite Z.sub_diag. replace (j - 52 - (j - 53)) with 1 by lia.
  assert (Hdiff : cond_Zopp false (Z.pos (pow2_pos (Z.to_nat 1) three51)) -
                  cond_Zopp false (Z.pos (pow2_pos (Z.to_nat 0) two52)) =
                  Z.pos (pow2_pos 1 two52)) by (vm_compute; reflexivity).
  rewrite Hdiff. unfold binary_normalize.
  rewrite binary_round_shift by (reflexivity || lia). f_equal; lia.
Qed.

(** The sum of [2^(j-1)] and a scaled draw, rounded: in the lower binade
    it is exact, in the upper binade its mantissa stays at or below
    [3 * 2^51]. *)
Lemma add_scaled_draw (j : Z) (k : positive) :
  Z.pos k < 2 ^ 53 → -900 ≤ j ≤ 900 →
  let d := Z.pos (digits2_pos k) in
  ∃ m e,
    F64.add (S754_finite false two52 (j - 53))
            (S754_finite false (pow2_pos (Z.to_nat (53 - d)) k) (j + d - 106))
      = S754_finite false m e ∧
    ((e = j - 53 ∧ Z.pos two52 < Z.pos m) ∨
     (e = j - 52 ∧ Z.pos m ≤ Z.pos three51)).
Proof.
  intros Hk Hj d.
  destruct (of_dyadic_draw k Hk) as [Hd _]. fold d in Hd.
  unfold F64.add, SFadd.
  rewrite Z.min_r by lia.
  rewrite !shl_align_fst by lia.
  rewrite Z.sub_diag. change (pow2_pos (Z.to_nat 0) ?x) with x.
  replace (j - 53 - (j + d - 106)) with (53 - d) by lia.
  unfold cond_Zopp. rewrite <- Pos2Z.inj_add, pow2_pos_plus.
  unfold binary_normalize.
  change (2 ^ 53) with 9007199254740992 in Hk.
  destruct (Z.lt_ge_cases (Z.pos k) 4503599627370496) as [Hlow|Hhigh].
  - assert (Hs : Z.pos (digits2_pos (two52 + k)) = 53).
    { apply digits2_pos_unique. rewrite Pos2Z.inj_add. unfold two52. simpl. lia. }
    rewrite binary_round_shift by (done || lia).
    eexists _, _. split; [done|]. left. split; [lia|].
    rewrite Pos2Z.inj_add. lia.
  - assert (Hd53 : d = 53).
    { apply digits2_pos_unique. simpl. lia. }
    rewrite Hd53. change (pow2_pos (Z.to_nat (53 - 53)) ?x) with x.
    assert (Hs : Z.pos (digits2_pos (two52 + k)) = 54).
    { apply digits2_pos_unique. rewrite Pos2Z.inj_add. unfold two52. simpl. lia. }
    destruct (binary_round_54 false (two52 + k) (j + 53 - 106) Hs) as (m' & -> & Hm').
    { rewrite Pos2Z.inj_add. unfold two52. simpl. lia. }
    { lia. }
    rewrite Pos2Z.inj_add in Hm'. unfold two52 in Hm'.
    eexists _, _. split; [done|]. right. split; [lia|].
    unfold three51. lia.
Qed.

(** *** The capped exponential and the jitter *)

Lemma backoff_exp_table (attempt : Z) :
  1 ≤ attempt ≤ 1024 → backoff_exp attempt f0_5 f4_0 = Ok (default_exp attempt).
Proof.
  intros Ha. unfold backoff_exp, pow2, float_mul_number.
  destruct (Z.leb_spec 0 (attempt - 1)); [|lia].
  unfold float_of_int.
  rewrite <- (Z2Nat.id (attempt - 1)) by lia.
  rewrite of_dyadic_pow2 by lia.
  rewrite Z2Nat.id by lia.
  change f0_5 with (S754_finite false two52 (-53)).
  rewrite (mul_two52 (-53) false two52 (attempt - 1 - 52)) by (done || lia).
  unfold float_min, F64.ltb, SFltb, SFcompare, f4_0. f_equal.
  unfold default_exp.
  destruct (Z.eqb_spec attempt 1) as [->|]; [done|].
  destruct (Z.eqb_spec attempt 2) as [->|]; [done|].
  destruct (Z.eqb_spec attempt 3) as [->|]; [done|].

  destruct (Z.compare_spec (-53 + (attempt - 1 - 52) + 52) (-50)) as [Heq|Hlt|Hgt];
    try lia; try done.
Qed.

(** From attempt 1025 on the capped exponential is not computed, whatever
    the base and the cap. *)
Lemma backoff_exp_overflow (attempt : Z) (base cap : spec_float) :
  1025 ≤ attempt →
  backoff_exp attempt base cap =
  Raise (PyExc OverflowError "int too large to convert to float").
Proof.
  intros Ha. unfold backoff_exp, pow2, float_mul_number.
  destruct (Z.leb_spec 0 (attempt - 1)); [|lia].
  by rewrite float_of_int_pow2_overflow by lia.
Qed.

(** The jittered delay lies between half and one and a half times the
    capped exponential [2^j], for every draw [k / 2^53]. *)
Lemma jitter_interval (j k : Z) :
  -900 ≤ j ≤ 900 → 0 ≤ k < 2 ^ 53 →
  let exp := S754_finite false two52 (j - 52) in
  let d := jitter exp (F64.of_dyadic k (-53)) in
  F64.leb (F64.mul exp f0_5) d = true ∧
  F64.leb d (F64.mul exp f1_5) = true ∧
  F64.is_finite d = true.
Proof.
  intros Hj Hk exp d. unfold d, jitter, uniform_at, exp.
  change f0_5 with (S754_finite false two52 (-53)).
  change f1_5 with (S754_finite false three51 (-52)).
  rewrite (mul_two52 (j - 52) false two52 (-53)) by (reflexivity || lia).
  rewrite (mul_two52 (j - 52) false three51 (-52)) by (reflexivity || lia).
  replace (j - 52 + -53 + 52) with (j - 53) by lia.
  replace (j - 52 + -52 + 52) with (j - 52) by lia.
  rewrite sub_hi_lo by assumption.
  assert (Hlo_hi : F64.leb (S754_finite false two52 (j - 53))
                     (S754_finite false three51 (j - 52)) = true).
  { unfold F64.leb, SFleb, SFcompare.
    destruct (Z.compare_spec (j - 53) (j - 52)); first [reflexivity | lia]. }
  assert (Hlo_lo : F64.leb (S754_finite false two52 (j - 53))
                     (S754_finite false two52 (j - 53)) = true).
  { unfold F64.leb, SFleb, SFcompare. rewrite Z.compare_refl. reflexivity. }
  destruct k as [|k|k]; [|  |lia].
  { (split; [exact Hlo_lo|split; [exact Hlo_hi|reflexivity]]). }
  destruct (of_dyadic_draw k ltac:(lia)) as [Hd ->].
  set (dk := Z.pos (digits2_pos k)) in *.
  rewrite (mul_two52 (j - 52) false) by (rewrite ?digits2_pow2_pos; fold dk; lia).
  replace (j - 52 + (dk - 106) + 52) with (j + dk - 106) by lia.
  destruct (add_scaled_draw j k ltac:(lia) Hj) as (m & e & Hadd & Hcases).
  fold dk in Hadd. rewrite Hadd.
  split; [|split; [|reflexivity]].
  - unfold F64.leb, SFleb, SFcompare.
    destruct Hcases as [[-> Hm]|[-> Hm]].
    + rewrite Z.compare_refl, Pos.compare_cont_spec, Pos2Z.inj_compare.
      destruct (Z.compare_spec (Z.pos two52) (Z.pos m)); first [reflexivity | lia].
    + destruct (Z.compare_spec (j - 53) (j - 52)); first [reflexivity | lia].
  - unfold F64.leb, SFleb, SFcompare.
    destruct Hcases as [[-> Hm]|[-> Hm]].
    + destruct (Z.compare_spec (j - 53) (j - 52)); first [reflexivity | lia].
    + rewrite Z.compare_refl, Pos.compare_cont_spec, Pos2Z.inj_compare.
      destruct (Z.compare_spec (Z.pos m) (Z.pos three51)); first [reflexivity | lia].
Qed.

(** ** One iteration of the loop *)

Section IterationFacts.
Context (w : World).

Lemma try_attempt_eq (rq : Request) (resp0 : option Response) (st : State) :
  try_attempt w rq resp0 st =
  (Ok (try_exit w (transport w (send_ix st) rq) resp0), sent_state st rq).
Proof. reflexivity. Qed.

Lemma next_delay_hint (ms attempt : Z) (st : State) :
  0 < ms → next_delay w ms attempt st = (Ok (hint_delay ms), st).
Proof.
  intros Hms. unfold next_delay.
  destruct (Z.ltb_spec 0 ms) as [_|]; [|lia].
  unfold mbind, M_bind, lift. rewrite float_of_int_hint by done.
  reflexivity.
Qed.

Lemma next_delay_backoff (ms attempt : Z) (st : State) :
  ms ≤ 0 →
  next_delay w ms attempt st =
  match backoff_exp attempt f0_5 f4_0 with
  | Ok exp => (Ok (jitter exp (random w (rand_ix st))), drawn_state st)
  | Raise e => (Raise e, st)
  end.
Proof.
  intros Hms. unfold next_delay.
  destruct (Z.ltb_spec 0 ms) as [|_]; [lia|].
  unfold backoff_delay, mbind, M_bind, lift.
  destruct (backoff_exp attempt f0_5 f4_0); reflexivity.
Qed.

Lemma retry_decision_stop (c : SyndigoClient) (attempt : Z)
    (resp : option Response) (status : option Z) (exc : option py_exception)
    (ms : Z) (st : State) :
  max_attempts c ≤ attempt ∨ is_retryable status exc = false →
  retry_decision w c attempt resp status exc ms st =
  match resp with
  | Some r => (Ok (Stop r), st)
  | None =>
      (Raise (PyExc RuntimeError
                ("HTTP call failed without response: " +:+ str_of_exc exc)), st)
  end.
Proof.
  intros H. unfold retry_decision.
  replace ((max_attempts c <=? attempt) || negb (is_retryable status exc))
    with true.
  - destruct resp; reflexivity.
  - symmetry. apply orb_true_iff.
    destruct H as [H|H]; [left; lia | right; by rewrite H].
Qed.

Lemma retry_decision_retry (c : SyndigoClient) (attempt : Z)
    (resp : option Response) (status : option Z) (exc : option py_exception)
    (ms : Z) (st : State) :
  attempt < max_attempts c → is_retryable status exc = true →
  retry_decision w c attempt resp status exc ms st =
  match next_delay w ms attempt st with
  | (Ok d, st') => (Ok (Again resp), slept_state st' d)
  | (Raise e, st') => (Raise e, st')
  end.
Proof.
  intros Ha Hr. unfold retry_decision.
  replace ((max_attempts c <=? attempt) || negb (is_retryable status exc))
    with false.
  - unfold mbind, M_bind.
    destruct (next_delay w ms attempt st) as [[d|e] st']; reflexivity.
  - symmetry. apply orb_false_iff. rewrite Hr. split; [lia|done].
Qed.

Lemma iteration_eq (c : SyndigoClient) (method url : string)
    (params json_body : option Any) (headers : option (gmap string string))
    (idem : option string) (attempt : Z) (resp0 : option Response) (st : State) :
  let rq := attempt_request c method url params json_body headers idem
              (uuid4 w (uuid_ix st)) in
  iteration w c method url params json_body headers idem attempt resp0 st =
  match try_exit w (transport w (send_ix st) rq) resp0 with
  | Return r => (Ok (Stop r), sent_state (uuid_state st) rq)
  | FallThrough resp status exc ms =>
      retry_decision w c attempt resp status exc ms (sent_state (uuid_state st) rq)
  end.
Proof.
  intros rq. unfold iteration, mbind, M_bind, draw_uuid4.
  rewrite try_attempt_eq. fold rq. simpl.
  destruct (try_exit w (transport w (send_ix st) rq) resp0); reflexivity.
Qed.

Lemma next_delay_cases (ms attempt : Z) (st : State) :
  (∃ d st', next_delay w ms attempt st = (Ok d, st') ∧
            uuid_ix st' = uuid_ix st ∧ send_ix st' = send_ix st ∧
            trace st' = trace st) ∨
  (∃ e, next_delay w ms attempt st = (Raise e, st)).
Proof.
  destruct (Z.lt_ge_cases 0 ms) as [Hms|Hms].
  - left. rewrite next_delay_hint by done. eauto 10.
  - rewrite next_delay_backoff by lia.
    destruct (backoff_exp attempt f0_5 f4_0); [left|right]; eauto 10.
Qed.

Lemma next_delay_ok (ms attempt : Z) (st : State) :
  1 ≤ attempt ≤ 1024 →
  ∃ d st', next_delay w ms attempt st = (Ok d, st') ∧
           uuid_ix st' = uuid_ix st ∧ send_ix st' = send_ix st ∧
           trace st' = trace st.
Proof.
  intros Ha. destruct (Z.lt_ge_cases 0 ms) as [Hms|Hms].
  - rewrite next_delay_hint by done. eauto 10.
  - rewrite next_delay_backoff by lia.
    rewrite backoff_exp_table by done. eauto 10.
Qed.

(** The three ways in which one iteration ends. *)
Lemma iteration_cases (c : SyndigoClient) (method url : string)
    (params json_body : option Any) (headers : option (gmap string string))
    (idem : option string) (attempt : Z) (resp0 : option Response)
    (st : State) (res : result LoopExit) (st' : State) :
  let rq := attempt_request c method url params json_body headers idem
              (uuid4 w (uuid_ix st)) in
  iteration w c method url params json_body headers idem attempt resp0 st
    = (res, st') →
  uuid_ix st' = S (uuid_ix st) ∧ send_ix st' = S (send_ix st) ∧
  ((∃ r, res = Ok (Stop r) ∧ trace st' = trace st ++ [Sent rq]) ∨
   (∃ e, res = Raise e ∧ trace st' = trace st ++ [Sent rq]) ∨
   (∃ resp d, res = Ok (Again resp) ∧ attempt < max_attempts c ∧
              trace st' = trace st ++ [Sent rq; Slept d])).
Proof.
  intros rq. rewrite iteration_eq. fold rq.
  destruct (try_exit w (transport w (send_ix st) rq) resp0)
    as [r|resp status exc ms].
  { intros [= <- <-]. simpl. eauto 10. }
  unfold retry_decision.
  destruct ((max_attempts c <=? attempt) || negb (is_retryable status exc))
    eqn:Hstop.
  { destruct resp as [r|]; intros [= <- <-]; simpl; eauto 10. }
  apply orb_false_iff in Hstop as [Hlt _]. apply Z.leb_gt in Hlt.
  unfold mbind, M_bind.
  destruct (next_delay_cases ms attempt (sent_state (uuid_state st) rq))
    as [(d & st1 & -> & Hu & Hs & Ht)|(e & ->)].
  - intros [= <- <-]. simpl. rewrite Hu, Hs, Ht. simpl.
    repeat split; try done. right; right. exists resp, d.
    rewrite <- app_assoc. done.
  - intros [= <- <-]. simpl. eauto 10.
Qed.

End IterationFacts.

(** ** The loop *)

Section LoopFacts.
Context (w : World) (c : SyndigoClient) (method url : string)
  (params json_body : option Any) (headers : option (gmap string string))
  (idem : option string).

Local Abbreviation loop := (fun fuel => request_loop w fuel c method url params json_body headers idem).
Local Abbreviation body := (iteration w c method url params json_body headers idem).
Local Abbreviation rq_at := (fun st => attempt_request c method url params json_body headers idem
                               (uuid4 w (uuid_ix st))).

Lemma request_loop_S (fuel : nat) (attempt : Z) (resp : option Response) (st : State) :
  loop (S fuel) attempt resp st =
  match body attempt resp st with
  | (Ok (Stop r), st') => Some (Ok r, st')
  | (Ok (Again resp'), st') => loop fuel (attempt + 1) resp' st'
  | (Raise e, st') => Some (Raise e, st')
  end.
Proof. reflexivity. Qed.

(** The loop ends: [max_attempts - attempt + 1] iterations suffice, and
    one does when the attempt counter has passed the limit. *)
Lemma request_loop_total (fuel : nat) (attempt : Z) (resp : option Response)
    (st : State) :
  (Z.to_nat (max_attempts c - attempt) < fuel)%nat →
  is_Some (loop fuel attempt resp st).
Proof.
  revert attempt resp st.
  induction fuel as [|fuel IH]; intros attempt resp st Hfuel; [lia|].
  rewrite request_loop_S.
  destruct (body attempt resp st) as [res st'] eqn:Hit.
  apply iteration_cases in Hit as (_ & _ & [(r & -> & _)|[(e & -> & _)|(resp' & d & -> & Hlt & _)]]).
  - eauto.
  - eauto.
  - apply IH. lia.
Qed.

(** More fuel does not change a result. *)
Lemma request_loop_fuel_mono (fuel fuel' : nat) (attempt : Z)
    (resp : option Response) (st : State) (out : result Response * State) :
  (fuel ≤ fuel')%nat →
  loop fuel attempt resp st = Some out →
  loop fuel' attempt resp st = Some out.
Proof.
  revert fuel' attempt resp st.
  induction fuel as [|fuel IH]; intros fuel' attempt resp st Hle; [done|].
  destruct fuel' as [|fuel']; [lia|].
  rewrite !request_loop_S.
  destruct (body attempt resp st) as [[[r|resp']|e] st']; try done.
  apply IH. lia.
Qed.

(** The requests of one call: the [i]-th carries the [i]-th trace
    identifier drawn from the start of the call, and there is at least
    one. *)
Lemma request_loop_sent (fuel : nat) (attempt : Z) (resp : option Response)
    (st : State) (res : result Response) (st' : State) :
  loop fuel attempt resp st = Some (res, st') →
  ∃ n : nat,
    sent_of (trace st') =
      sent_of (trace st) ++
      map (λ i, attempt_request c method url params json_body headers idem
                  (uuid4 w (uuid_ix st + i)%nat))
          (seq 0 (S n)) ∧
    send_ix st' = (send_ix st + S n)%nat.
Proof.
  revert attempt resp st.
  induction fuel as [|fuel IH]; intros attempt resp st; [done|].
  rewrite request_loop_S.
  destruct (body attempt resp st) as [r1 st1] eqn:Hit.
  apply iteration_cases in Hit
    as (Hu & Hs & [(r & -> & Ht)|[(e & -> & Ht)|(resp' & d & -> & Hlt & Ht)]]).
  - intros [= <- <-]. exists 0%nat. rewrite Ht, Hs, sent_of_app.
    simpl. rewrite Nat.add_0_r. split; [done|lia].
  - intros [= <- <-]. exists 0%nat. rewrite Ht, Hs, sent_of_app.
    simpl. rewrite Nat.add_0_r. split; [done|lia].
  - intros Hloop. apply IH in Hloop as (n & Hsent & Hsend).
    exists (S n). rewrite Hsent, Hsend, Ht, Hu, Hs. split; [|lia].
    rewrite sent_of_app, <- app_assoc. f_equal.
    rewrite (map_seq_from
               (λ k, attempt_request c method url params json_body headers
                       idem (uuid4 w k)) (uuid_ix st) (S n)).
    reflexivity.
Qed.

End LoopFacts.

(** ** Whole calls *)

Section RequestFacts.
Context (w : World) (c : SyndigoClient) (method path : string)
  (params json_body : option Any) (headers : option (gmap string string))
  (idem : option string).

Local Abbreviation url := (base_url c +:+ "/" +:+ lstrip slash path).
Local Abbreviation call := (request w c method path params json_body headers idem).

Lemma request_fuel :
  ∃ fuel, Z.to_nat (Z.max 1 (max_attempts c)) = S fuel ∧
          (Z.to_nat (max_attempts c - 1) ≤ fuel)%nat.
Proof. exists (Z.to_nat (Z.max 1 (max_attempts c) - 1)). lia. Qed.

(** Every call ends, with a response or with an exception. *)
Lemma request_total (st : State) : is_Some (call st).
Proof. apply request_loop_total. lia. Qed.

Lemma new_sent_app (tr : list Event) (reqs : list Request) (tr' : list Event) :
  sent_of tr' = sent_of tr ++ reqs → new_sent tr tr' = reqs.
Proof. intros H. unfold new_sent. rewrite H. apply drop_app_length. Qed.

Lemma new_slept_app (tr : list Event) (ds : list spec_float) (tr' : list Event) :
  slept_of tr' = slept_of tr ++ ds → new_slept tr tr' = ds.
Proof. intros H. unfold new_slept. rewrite H. apply drop_app_length. Qed.

(** The requests of a call, by trace identifier. *)
Lemma request_sent (st : State) (res : result Response) (st' : State) :
  call st = Some (res, st') →
  ∃ n : nat,
    new_sent (trace st) (trace st') =
      map (λ i, attempt_request c method url params json_body headers idem
                  (uuid4 w (uuid_ix st + i)%nat))
          (seq 0 (S n)) ∧
    send_ix st' = (send_ix st + S n)%nat.
Proof.
  intros H. apply request_loop_sent in H as (n & Hsent & Hsend).
  exists n. split; [|done]. by apply new_sent_app.
Qed.

End RequestFacts.

(** ** The headers of an attempt *)

Lemma out_headers_idempotency_key (c : SyndigoClient) (request_id : string)
    (idem : option string) (headers : option (gmap string string)) :
  out_headers c request_id idem headers !! "Idempotency-Key" =
  match headers ≫= (.!! "Idempotency-Key") with
  | Some v => Some v
  | None =>
      match idem with
      | Some k => if truthy k then Some k else None
      | None => None
      end
  end.
Proof.
  unfold out_headers.
  assert (Hbase : ∀ h1 : gmap string string,
    match headers with Some h => h ∪ h1 | None => h1 end !! "Idempotency-Key" =
    match headers ≫= (.!! "Idempotency-Key") with
    | Some v => Some v
    | None => h1 !! "Idempotency-Key"
    end).
  { intros h1. destruct headers as [h|]; simpl; [|done].
    rewrite lookup_union. destruct (h !! "Idempotency-Key"); simpl.
    - by destruct (h1 !! "Idempotency-Key").
    - by destruct (h1 !! "Idempotency-Key"). }
  rewrite Hbase. destruct (headers ≫= _); [done|].
  destruct idem as [k|]; [destruct (truthy k)|]; by simplify_map_eq.
Qed.

Lemma out_headers_request_id (c : SyndigoClient) (request_id : string)
    (idem : option string) (headers : option (gmap string string)) :
  out_headers c request_id idem headers !! "X-Request-ID" =
  match headers ≫= (.!! "X-Request-ID") with
  | Some v => Some v
  | None => Some request_id
  end.
Proof.
  unfold out_headers.
  assert (Hbase : ∀ h1 : gmap string string,
    match headers with Some h => h ∪ h1 | None => h1 end !! "X-Request-ID" =
    match headers ≫= (.!! "X-Request-ID") with
    | Some v => Some v
    | None => h1 !! "X-Request-ID"
    end).
  { intros h1. destruct headers as [h|]; simpl; [|done].
    rewrite lookup_union. destruct (h !! "X-Request-ID"); simpl.
    - by destruct (h1 !! "X-Request-ID").
    - by destruct (h1 !! "X-Request-ID"). }
  rewrite Hbase. destruct (headers ≫= _); [done|].
  destruct idem as [k|]; [destruct (truthy k)|]; by simplify_map_eq.
Qed.

(** ** How the [try] statement ends *)

Section TryFacts.
Context (w : World).

Lemma retry_after_ms_of_other (r : Response) :
  status_code r ∉ RETRYABLE_STATUS → retry_after_ms_of w r = Ok 0.
Proof.
  intros H. unfold retry_after_ms_of. by rewrite bool_decide_eq_false_2.
Qed.

(** Only [OverflowError] escapes the Retry-After handling, and only on a
    retryable status. *)
Lemma retry_after_ms_of_raise (r : Response) (e : py_exception) :
  retry_after_ms_of w r = Raise e →
  status_code r ∈ RETRYABLE_STATUS ∧ exc_type e = OverflowError.
Proof.
  unfold retry_after_ms_of. case_bool_decide; [|discriminate].
  intros Hr. split; [done|].
  destruct (headers_get _ _) as [ra|]; [|discriminate].
  destruct (truthy ra); [|discriminate].
  destruct (float_of_str w ra) as [x|]; [|discriminate].
  destruct (F64.mul x f1000); simpl in Hr; try discriminate.
  by injection Hr as <-.
Qed.

Lemma try_exit_success (r : Response) (resp0 : option Response) :
  200 ≤ status_code r < 300 → try_exit w (Responded r) resp0 = Return r.
Proof.
  intros H. unfold try_exit.
  rewrite retry_after_ms_of_other.
  - by rewrite bool_decide_eq_true_2.
  - rewrite retryable_status_spec. lia.
Qed.

Lemma try_exit_non_retryable (r : Response) (resp0 : option Response) :
  status_code r ∈ NON_RETRYABLE_STATUS → try_exit w (Responded r) resp0 = Return r.
Proof.
  intros H. unfold try_exit.
  rewrite retry_after_ms_of_other.
  - case_bool_decide; [done|]. by rewrite bool_decide_eq_true_2.
  - intros H'. by destruct (status_sets_disjoint _ H').
Qed.

Lemma try_exit_retryable (o : Outcome) (resp0 : option Response) :
  retryable_outcome o →
  ∃ status exc ms,
    try_exit w o resp0 =
      FallThrough (match o with Responded r => Some r | Failed _ => resp0 end)
        status exc ms ∧
    is_retryable status exc = true.
Proof.
  destruct o as [r|e]; simpl; intros H; [|eauto].
  destruct (status_sets_disjoint _ H) as [Hn H2].
  destruct (retry_after_ms_of w r) as [ms|e] eqn:Hra; [|eauto].
  rewrite bool_decide_eq_false_2, bool_decide_eq_false_2 by done.
  eexists _, _, _. split; [done|]. simpl. by apply bool_decide_eq_true_2.
Qed.

Lemma try_exit_other (r : Response) (resp0 : option Response) :
  ¬ (200 ≤ status_code r < 300) →
  status_code r ∉ NON_RETRYABLE_STATUS →
  status_code r ∉ RETRYABLE_STATUS →
  try_exit w (Responded r) resp0 = FallThrough (Some r) (Some (status_code r)) None 0 ∧
  is_retryable (Some (status_code r)) None = false.
Proof.
  intros H2 Hn Hr. unfold try_exit.
  rewrite retry_after_ms_of_other by done.
  rewrite !bool_decide_eq_false_2 by done. split; [done|].
  simpl. by apply bool_decide_eq_false_2.
Qed.

End TryFacts.

(** ** Terminal first attempts *)

Section Terminal.
Context (w : World) (c : SyndigoClient) (method path : string)
  (params json_body : option Any) (headers : option (gmap string string))
  (idem : option string).

Local Abbreviation call := (request w c method path params json_body headers idem).

(** A first attempt whose [try] statement returns ends the call: one
    request, no delay. *)
Lemma request_first_return (st : State) (r : Response) :
  (∀ rq, try_exit w (transport w (send_ix st) rq) None = Return r) →
  ∃ st' rq, call st = Some (Ok r, st') ∧ trace st' = trace st ++ [Sent rq].
Proof.
  intros Hret. unfold request.
  destruct (request_fuel c) as (fuel & -> & _).
  rewrite request_loop_S, iteration_eq, Hret.
  eexists _, _. split; [done|]. done.
Qed.

(** A first attempt that falls through with a response and is not
    retryable ends the call likewise. *)
Lemma request_first_not_retryable (st : State) (r : Response) (status : option Z) (ms : Z) :
  (∀ rq, try_exit w (transport w (send_ix st) rq) None
         = FallThrough (Some r) status None ms) →
  is_retryable status None = false →
  ∃ st' rq, call st = Some (Ok r, st') ∧ trace st' = trace st ++ [Sent rq].
Proof.
  intros Hft Hnr. unfold request.
  destruct (request_fuel c) as (fuel & -> & _).
  rewrite request_loop_S, iteration_eq, Hft.
  rewrite retry_decision_stop by auto.
  eexists _, _. split; [done|]. done.
Qed.

End Terminal.

(** C6 — A call whose first physical attempt returns status 404 performs
    exactly one attempt and returns that response at once: the trace of
    the call is the one request, with no delay slept. *)
Theorem first_attempt_404_returned (w : World) (c : SyndigoClient)
    (method path : string) (params json_body : option Any)
    (headers : option (gmap string string)) (idem : option string)
    (st : State) (r : Response) :
  (∀ rq, transport w (send_ix st) rq = Responded r) →
  status_code r = 404 →
  ∃ st' rq,
    request w c method path params json_body headers idem st = Some (Ok r, st') ∧
    trace st' = trace st ++ [Sent rq] ∧
    new_sent (trace st) (trace st') = [rq] ∧
    new_slept (trace st) (trace st') = [].
Proof.
  intros Hsend Hstatus.
  destruct (request_first_return w c method path params json_body headers idem st r)
    as (st' & rq & Hcall & Htrace).
  { intros rq. rewrite Hsend. apply try_exit_non_retryable.
    rewrite Hstatus. apply non_retryable_status_spec. lia. }
  exists st', rq. split; [done|]. split; [done|]. split.
  - apply new_sent_app. by rewrite Htrace, sent_of_app.
  - apply new_slept_app. rewrite Htrace, slept_of_app. simpl. by rewrite app_nil_r.
Qed.

Lemma first_attempt_404_returned_witness :
  ∃ st' rq,
    request (sample_world [] (Responded (plain 404))) (sample_client 3)
      "GET" "/configs" None None None None st0 = Some (Ok (plain 404), st') ∧
    trace st' = trace st0 ++ [Sent rq] ∧
    new_sent (trace st0) (trace st') = [rq] ∧
    new_slept (trace st0) (trace st') = [].
Proof.
  apply first_attempt_404_returned; [intros rq; reflexivity | reflexivity].
Defined.

(** C9 — The constructor stores [max(1, max_attempts)]: the stored limit
    is at least 1 also for a zero or negative argument, and every logical
    call of the client so built ends after at least one physical
    attempt. *)
Theorem init_max_attempts_at_least_one (w : World) (base_url0 : string)
    (run_id0 : option string) (m : Z) (ua : string) (st : State) :
  ∃ c st1,
    init w base_url0 run_id0 m ua st = (Ok c, st1) ∧
    max_attempts c = Z.max 1 m ∧
    1 ≤ max_attempts c ∧
    ∀ method path params json_body headers idem st2,
      ∃ res st' rq reqs,
        request w c method path params json_body headers idem st2
          = Some (res, st') ∧
        new_sent (trace st2) (trace st') = rq :: reqs.
Proof.
  assert (Hinit : ∃ rid st1, init w base_url0 run_id0 m ua st =
            (Ok (mkClient (rstrip slash base_url0) rid (Z.max 1 m) ua), st1)).
  { unfold init. destruct run_id0 as [r|]; [destruct (truthy r)|]; eauto. }
  destruct Hinit as (rid & st1 & ->).
  eexists _, _. split; [done|]. simpl. split; [done|]. split; [lia|].
  intros method path params json_body headers idem st2.
  destruct (request_total w (mkClient (rstrip slash base_url0) rid (Z.max 1 m) ua)
              method path params json_body headers idem st2) as [[res st'] Hcall].
  destruct (request_sent _ _ _ _ _ _ _ _ _ _ _ Hcall) as (n & Hsent & _).
  exists res, st'. rewrite Hsent. simpl. eauto.
Qed.

(** ** The headers across the attempts of a call *)

Section HeaderFacts.
Context (w : World) (c : SyndigoClient) (method path : string)
  (params json_body : option Any) (headers : option (gmap string string))
  (idem : option string).

Local Abbreviation call := (request w c method path params json_body headers idem).

(** Every call ends, and its [i]-th request is built from the [i]-th
    trace identifier drawn since the start of the call. *)
Lemma request_requests (st : State) :
  ∃ res st' (n : nat),
    call st = Some (res, st') ∧
    length (new_sent (trace st) (trace st')) = S n ∧
    ∀ (i : nat) rq, new_sent (trace st) (trace st') !! i = Some rq →
      ∃ url, rq = attempt_request c method url params json_body headers idem
                    (uuid4 w (uuid_ix st + i)%nat).
Proof.
  destruct (request_total w c method path params json_body headers idem st)
    as [[res st'] Hcall].
  destruct (request_sent _ _ _ _ _ _ _ _ _ _ _ Hcall) as (n & Hsent & _).
  exists res, st', n. split; [done|]. rewrite Hsent. split.
  - by rewrite length_map, length_seq.
  - intros i rq Hi. apply list_lookup_fmap_Some in Hi as (k & -> & Hk).
    apply lookup_seq in Hk as [-> _]. eauto.
Qed.

End HeaderFacts.

(** C10 — With the empty string as idempotency key, and no
    Idempotency-Key entry in the caller's extra headers, the call ends and
    none of its physical attempts carries an Idempotency-Key header. *)
Theorem empty_idempotency_key_not_sent (w : World) (c : SyndigoClient)
    (method path : string) (params json_body : option Any)
    (headers : option (gmap string string)) (st : State) :
  headers ≫= (.!! "Idempotency-Key") = None →
  ∃ res st',
    request w c method path params json_body headers (Some "") st
      = Some (res, st') ∧
    new_sent (trace st) (trace st') ≠ [] ∧
    ∀ rq, rq ∈ new_sent (trace st) (trace st') →
      rq_headers rq !! "Idempotency-Key" = None.
Proof.
  intros Hh.
  destruct (request_requests w c method path params json_body headers (Some "") st)
    as (res & st' & n & Hcall & Hlen & Hrq).
  exists res, st'. split; [done|]. split.
  - intros Hnil. by rewrite Hnil in Hlen.
  - intros rq Hin. apply list_elem_of_lookup in Hin as [i Hi].
    destruct (Hrq i rq Hi) as [url ->]. simpl.
    rewrite out_headers_idempotency_key, Hh. done.
Qed.

Lemma empty_idempotency_key_not_sent_witness :
  ∃ res st',
    request (sample_world [Responded (plain 503)] (Responded (plain 200)))
      (sample_client 3) "POST" "/items" None (Some "{}")
      (Some {[ "X-Tenant" := "acme" ]}) (Some "") st0 = Some (res, st') ∧
    new_sent (trace st0) (trace st') ≠ [] ∧
    ∀ rq, rq ∈ new_sent (trace st0) (trace st') →
      rq_headers rq !! "Idempotency-Key" = None.
Proof.
  apply empty_idempotency_key_not_sent. reflexivity.
Defined.

(** C8, as stated, fails: a caller who passes an X-Request-ID entry in the
    extra headers overrides the fresh identifier, and both attempts of the
    call below carry the caller's value. *)
Lemma caller_request_id_counterexample :
  ∃ res st' rq1 rq2,
    request (sample_world [Responded (plain 503)] (Responded (plain 200)))
      (sample_client 3) "POST" "/items" None (Some "{}")
      (Some {[ "X-Request-ID" := "fixed" ]}) (Some "key-1") st0
      = Some (res, st') ∧
    new_sent (trace st0) (trace st') = [rq1; rq2] ∧
    rq_headers rq1 !! "X-Request-ID" = Some "fixed" ∧
    rq_headers rq2 !! "X-Request-ID" = Some "fixed" ∧
    ¬ distinct_request_ids (new_sent (trace st0) (trace st')).
Proof.
  destruct (request _ _ _ _ _ _ _ _ st0) as [[res st']|] eqn:Hcall;
    vm_compute in Hcall; [|discriminate].
  injection Hcall as <- <-.
  eexists _, _, _, _. split; [reflexivity|].
  split; [vm_compute; reflexivity|].
  split; [vm_compute; reflexivity|].
  split; [vm_compute; reflexivity|].
  intros Hd. eapply (Hd 0%nat 1%nat); [done| vm_compute; reflexivity ..].
Qed.

(** C8, amended — In one call every physical attempt carries the same
    Idempotency-Key header, the one that the caller supplied; and the
    X-Request-ID values of two distinct attempts differ when the caller's
    extra headers have no X-Request-ID entry and the identifiers drawn
    from [uuid4] are pairwise distinct. *)
Theorem idempotency_key_stable_request_id_fresh (w : World) (c : SyndigoClient)
    (method path : string) (params json_body : option Any)
    (headers : option (gmap string string)) (idem : option string)
    (st : State) :
  ∃ res st',
    request w c method path params json_body headers idem st = Some (res, st') ∧
    same_idempotency_key (new_sent (trace st) (trace st')) ∧
    (∀ rq, rq ∈ new_sent (trace st) (trace st') →
       rq_headers rq !! "Idempotency-Key" = caller_idempotency_key headers idem) ∧
    (headers ≫= (.!! "X-Request-ID") = None →
     (∀ i j : nat, i ≠ j → uuid4 w i ≠ uuid4 w j) →
     distinct_request_ids (new_sent (trace st) (trace st'))).
Proof.
  destruct (request_requests w c method path params json_body headers idem st)
    as (res & st' & n & Hcall & Hlen & Hrq).
  exists res, st'. split; [done|].
  assert (Hkey : ∀ rq, rq ∈ new_sent (trace st) (trace st') →
            rq_headers rq !! "Idempotency-Key" = caller_idempotency_key headers idem).
  { intros rq Hin. apply list_elem_of_lookup in Hin as [i Hi].
    destruct (Hrq i rq Hi) as [url ->]. simpl.
    apply out_headers_idempotency_key. }
  split; [|split; [done|]].
  - intros rq1 rq2 H1 H2. by rewrite (Hkey rq1), (Hkey rq2).
  - intros Hh Hinj i j rq1 rq2 Hij H1 H2.
    destruct (Hrq i rq1 H1) as [url1 ->]. destruct (Hrq j rq2 H2) as [url2 ->].
    simpl. rewrite !out_headers_request_id, Hh.
    intros [= Heq]. apply (Hinj (uuid_ix st + i)%nat (uuid_ix st + j)%nat); [lia|done].
Qed.

Lemma sample_uuid_inj (i j : nat) : i ≠ j → sample_uuid i ≠ sample_uuid j.
Proof.
  intros Hij Heq. unfold sample_uuid in Heq.
  apply (inj (String.app "req-")) in Heq.
  by apply (inj pretty) in Heq.
Qed.

Lemma idempotency_key_stable_request_id_fresh_witness :
  ∃ res st',
    request (sample_world [Failed timeout_exc] (Responded (plain 200)))
      (sample_client 3) "POST" "/items" None (Some "{}") None (Some "key-1") st0
      = Some (res, st') ∧
    same_idempotency_key (new_sent (trace st0) (trace st')) ∧
    (∀ rq, rq ∈ new_sent (trace st0) (trace st') →
       rq_headers rq !! "Idempotency-Key" = Some "key-1") ∧
    distinct_request_ids (new_sent (trace st0) (trace st')).
Proof.
  destruct (idempotency_key_stable_request_id_fresh
              (sample_world [Failed timeout_exc] (Responded (plain 200)))
              (sample_client 3) "POST" "/items" None (Some "{}") None
              (Some "key-1") st0)
    as (res & st' & Hcall & Hsame & Hkey & Hfresh).
  exists res, st'. split; [exact Hcall|]. split; [exact Hsame|].
  split; [exact Hkey|].
  apply Hfresh; [reflexivity|]. exact sample_uuid_inj.
Defined.

(** ** Retrying *)

Section RetryFacts.
Context (w : World) (c : SyndigoClient) (method url : string)
  (params json_body : option Any) (headers : option (gmap string string))
  (idem : option string).

Local Abbreviation loop := (fun fuel => request_loop w fuel c method url params json_body headers idem).
Local Abbreviation body := (iteration w c method url params json_body headers idem).
Local Abbreviation rq_of := (fun st => attempt_request c method url params json_body headers idem
                               (uuid4 w (uuid_ix st))).

(** A retryable attempt below the limit (and below attempt 1025) sleeps
    once and goes round again. *)
Lemma iteration_retry (attempt : Z) (resp0 : option Response) (st : State) :
  retryable_outcome (transport w (send_ix st) (rq_of st)) →
  attempt < max_attempts c → 1 ≤ attempt ≤ 1024 →
  ∃ d st',
    body attempt resp0 st =
      (Ok (Again (resp_after (transport w (send_ix st) (rq_of st)) resp0)), st') ∧
    uuid_ix st' = S (uuid_ix st) ∧ send_ix st' = S (send_ix st) ∧
    trace st' = trace st ++ [Sent (rq_of st); Slept d].
Proof.
  intros Hretry Hlt Ha. rewrite iteration_eq.
  destruct (try_exit_retryable w _ resp0 Hretry) as (status & exc & ms & -> & His).
  rewrite retry_decision_retry by done.
  destruct (next_delay_ok w ms attempt (sent_state (uuid_state st) (rq_of st)) Ha)
    as (d & st1 & -> & Hu & Hs & Ht).
  exists d, (slept_state st1 d). split; [done|]. simpl.
  rewrite Hu, Hs, Ht. simpl. rewrite <- app_assoc. done.
Qed.

(** A retryable attempt at the limit ends the call. *)
Lemma iteration_at_limit (attempt : Z) (resp0 : option Response) (st : State) :
  retryable_outcome (transport w (send_ix st) (rq_of st)) →
  max_attempts c ≤ attempt →
  body attempt resp0 st =
    (match final_result (transport w (send_ix st) (rq_of st)) resp0 with
     | Ok r => Ok (Stop r)
     | Raise e => Raise e
     end, sent_state (uuid_state st) (rq_of st)).
Proof.
  intros Hretry Hle. rewrite iteration_eq. unfold final_result.
  destruct (transport w (send_ix st) (rq_of st)) as [r|e] eqn:Ho.
  - destruct (try_exit_retryable w (Responded r) resp0 Hretry)
      as (status & exc & ms & -> & His).
    by rewrite retry_decision_stop by auto.
  - simpl. rewrite retry_decision_stop by auto. by destruct resp0.
Qed.

(** When every attempt is retryable, the loop runs to the limit: from
    attempt [max_attempts - k] it sends [k + 1] requests, sleeps [k]
    times, and gives back what the last attempt leaves. *)
Lemma loop_all_retryable (k : nat) :
  ∀ (fuel : nat) (attempt : Z) (resp : option Response) (st : State),
  (∀ i rq, retryable_outcome (transport w i rq)) →
  1 ≤ attempt → attempt + Z.of_nat k = max_attempts c →
  max_attempts c ≤ 1025 → (k < fuel)%nat →
  ∃ rq resp_last st' evs,
    loop fuel attempt resp st =
      Some (final_result (transport w (send_ix st + k)%nat rq) resp_last, st') ∧
    (resp = None → (∀ i rq e, transport w i rq ≠ Responded e) → resp_last = None) ∧
    trace st' = trace st ++ evs ∧
    length (sent_of evs) = S k ∧ length (slept_of evs) = k ∧
    send_ix st' = (send_ix st + S k)%nat.
Proof.
  induction k as [|k IH]; intros fuel attempt resp st Hall Ha Hk Hmax Hfuel.
  - destruct fuel as [|fuel]; [lia|]. rewrite request_loop_S.
    rewrite iteration_at_limit by (auto || lia).
    exists (rq_of st), resp, (sent_state (uuid_state st) (rq_of st)), [Sent (rq_of st)].
    rewrite Nat.add_0_r.
    destruct (final_result _ resp); simpl; repeat split; auto; lia.
  - destruct fuel as [|fuel]; [lia|]. rewrite request_loop_S.
    destruct (iteration_retry attempt resp st (Hall _ _) ltac:(lia) ltac:(lia))
      as (d & st1 & -> & Hu & Hs & Ht).
    destruct (IH fuel (attempt + 1)
                (resp_after (transport w (send_ix st) (rq_of st)) resp) st1
                Hall ltac:(lia) ltac:(lia) Hmax ltac:(lia))
      as (rq & resp_last & st' & evs & Hloop & Hnone & Htr & Hsent & Hslept & Hsend).
    exists rq, resp_last, st', ([Sent (rq_of st); Slept d] ++ evs).
    rewrite Hs in Hloop, Hsend.
    replace (send_ix st + S k)%nat with (S (send_ix st) + k)%nat by lia.
    split; [done|]. split.
    { intros Hr Hno. apply Hnone; [|done]. rewrite Hr.
      destruct (transport w (send_ix st) (rq_of st)) eqn:Ho; [|done].
      by apply Hno in Ho. }
    rewrite Htr, Ht, <- app_assoc, sent_of_app, slept_of_app. simpl.
    repeat split; auto; lia.
Qed.

End RetryFacts.

(** C7 — With [max_attempts = 3], a call whose first attempt is
    retryable (a transport failure or a retryable status) and whose second
    attempt returns status 200 performs exactly two physical attempts,
    sleeps exactly once, between them, and returns the response of the
    second attempt. *)
Theorem success_on_second_attempt (w : World) (c : SyndigoClient)
    (method path : string) (params json_body : option Any)
    (headers : option (gmap string string)) (idem : option string)
    (st : State) (r2 : Response) :
  max_attempts c = 3 →
  (∀ rq, retryable_outcome (transport w (send_ix st) rq)) →
  (∀ rq, transport w (S (send_ix st)) rq = Responded r2) →
  status_code r2 = 200 →
  ∃ st' rq1 d rq2,
    request w c method path params json_body headers idem st = Some (Ok r2, st') ∧
    trace st' = trace st ++ [Sent rq1; Slept d; Sent rq2] ∧
    new_sent (trace st) (trace st') = [rq1; rq2] ∧
    new_slept (trace st) (trace st') = [d].
Proof.
  intros Hmax H1 H2 H200. unfold request. rewrite Hmax.
  change (Z.to_nat (Z.max 1 3)) with 3%nat.
  rewrite request_loop_S.
  destruct (iteration_retry w c method (base_url c +:+ "/" +:+ lstrip slash path)
              params json_body headers idem 1 None st (H1 _)
              ltac:(lia) ltac:(lia))
    as (d & st1 & -> & Hu & Hs & Ht).
  rewrite request_loop_S, iteration_eq, Hs, H2.
  rewrite try_exit_success by lia.
  eexists _, _, d, _. split; [reflexivity|]. simpl.
  rewrite Ht, <- app_assoc. simpl. split; [reflexivity|]. split.
  - apply new_sent_app. by rewrite sent_of_app.
  - apply new_slept_app. by rewrite slept_of_app.
Qed.

Lemma success_on_second_attempt_witness :
  ∃ st' rq1 d rq2,
    request (sample_world [Failed timeout_exc] (Responded (plain 200)))
      (sample_client 3) "GET" "/configs" None None None None st0
      = Some (Ok (plain 200), st') ∧
    trace st' = trace st0 ++ [Sent rq1; Slept d; Sent rq2] ∧
    new_sent (trace st0) (trace st') = [rq1; rq2] ∧
    new_slept (trace st0) (trace st') = [d].
Proof.
  apply success_on_second_attempt.
  - reflexivity.
  - intros rq. exact I.
  - intros rq. reflexivity.
  - reflexivity.
Defined.

(** ** Calls in which every attempt is retryable *)

Section Exhaustion.
Context (w : World) (c : SyndigoClient) (method path : string)
  (params json_body : option Any) (headers : option (gmap string string))
  (idem : option string).

Local Abbreviation call := (request w c method path params json_body headers idem).

(** Up to a limit of 1025 attempts, a call whose every attempt returns
    status 503 performs exactly [max_attempts] attempts, sleeps between
    them, and returns the response of the last attempt. *)
Lemma all_503_bounded (st : State) :
  1 ≤ max_attempts c ≤ 1025 →
  (∀ i rq, ∃ r, transport w i rq = Responded r ∧ status_code r = 503) →
  ∃ r rq st',
    call st = Some (Ok r, st') ∧
    transport w (send_ix st + Z.to_nat (max_attempts c - 1))%nat rq = Responded r ∧
    status_code r = 503 ∧
    length (new_sent (trace st) (trace st')) = Z.to_nat (max_attempts c) ∧
    length (new_slept (trace st) (trace st')) = Z.to_nat (max_attempts c - 1).
Proof.
  intros Hmax H503. unfold request.
  destruct (loop_all_retryable w c method (base_url c +:+ "/" +:+ lstrip slash path)
              params json_body headers idem (Z.to_nat (max_attempts c - 1))
              (Z.to_nat (Z.max 1 (max_attempts c))) 1 None st)
    as (rq & resp_last & st' & evs & Hloop & _ & Htr & Hsent & Hslept & _);
    try lia.
  { intros i rq. destruct (H503 i rq) as (r & -> & Hr). simpl.
    rewrite Hr. apply retryable_status_spec. lia. }
  destruct (H503 (send_ix st + Z.to_nat (max_attempts c - 1))%nat rq)
    as (r & Hr & Hst).
  rewrite Hr in Hloop. exists r, rq, st'. split; [exact Hloop|].
  split; [done|]. split; [done|]. split.
  - rewrite (new_sent_app (trace st) (sent_of evs)); [lia|].
    by rewrite Htr, sent_of_app.
  - rewrite (new_slept_app (trace st) (slept_of evs)); [lia|].
    by rewrite Htr, slept_of_app.
Qed.

(** Up to a limit of 1025 attempts, a call whose every attempt fails in
    the transport performs exactly [max_attempts] attempts and raises the
    [RuntimeError] that quotes the exception of the last attempt. *)
Lemma all_failed_bounded (st : State) :
  1 ≤ max_attempts c ≤ 1025 →
  (∀ i rq, ∃ e, transport w i rq = Failed e) →
  ∃ e rq st',
    call st =
      Some (Raise (PyExc RuntimeError
                     ("HTTP call failed without response: " +:+ exc_str e)), st') ∧
    transport w (send_ix st + Z.to_nat (max_attempts c - 1))%nat rq = Failed e ∧
    length (new_sent (trace st) (trace st')) = Z.to_nat (max_attempts c) ∧
    length (new_slept (trace st) (trace st')) = Z.to_nat (max_attempts c - 1).
Proof.
  intros Hmax Hfail. unfold request.
  destruct (loop_all_retryable w c method (base_url c +:+ "/" +:+ lstrip slash path)
              params json_body headers idem (Z.to_nat (max_attempts c - 1))
              (Z.to_nat (Z.max 1 (max_attempts c))) 1 None st)
    as (rq & resp_last & st' & evs & Hloop & Hnone & Htr & Hsent & Hslept & _);
    try lia.
  { intros i rq. by destruct (Hfail i rq) as (e & ->). }
  rewrite Hnone in Hloop; [|done|].
  2:{ intros i rq' r Hr. destruct (Hfail i rq') as (e & He). congruence. }
  destruct (Hfail (send_ix st + Z.to_nat (max_attempts c - 1))%nat rq) as (e & He).
  rewrite He in Hloop. exists e, rq, st'. split; [exact Hloop|].
  split; [done|]. split.
  - rewrite (new_sent_app (trace st) (sent_of evs)); [lia|].
    by rewrite Htr, sent_of_app.
  - rewrite (new_slept_app (trace st) (slept_of evs)); [lia|].
    by rewrite Htr, slept_of_app.
Qed.

End Exhaustion.

(** ** The classifier *)

Lemma classify_retryable_iff (status : option Z) (exc : option py_exception) :
  classify status exc = Retryable ↔ is_retryable status exc = true.
Proof.
  unfold classify. destruct exc as [e|]; [done|].
  destruct status as [s|]; [|done]. simpl.
  repeat case_bool_decide; try done.
  - split; [done|]. intros _. by destruct (status_sets_disjoint s).
  - split; [done|]. intros _. by destruct (status_sets_disjoint s).
Qed.

(** C1 — The classifier is a total function of the status code and the
    transport error.  With a transport error it answers Retryable,
    whatever the status; without one, 429, 502, 503 and 504 are
    Retryable, 400, 401, 403, 404, 409 and 422 are NonRetryable, 200 to
    299 are Success, and every other status is NonRetryable.  A first
    attempt whose response is not Retryable ends the call with that
    response, as it is and without a retry. *)
Theorem classify_spec :
  (∀ status e,
     is_retryable status (Some e) = true ∧ classify status (Some e) = Retryable) ∧
  (∀ s, s = 429 ∨ s = 502 ∨ s = 503 ∨ s = 504 →
     is_retryable (Some s) None = true ∧ classify (Some s) None = Retryable) ∧
  (∀ s, s = 400 ∨ s = 401 ∨ s = 403 ∨ s = 404 ∨ s = 409 ∨ s = 422 →
     classify (Some s) None = NonRetryable) ∧
  (∀ s, 200 ≤ s ≤ 299 → classify (Some s) None = Success) ∧
  (∀ s, ¬ (200 ≤ s ≤ 299) → ¬ (s = 429 ∨ s = 502 ∨ s = 503 ∨ s = 504) →
     is_retryable (Some s) None = false ∧ classify (Some s) None = NonRetryable) ∧
  (∀ (w : World) (c : SyndigoClient) (method path : string)
     (params json_body : option Any) (headers : option (gmap string string))
     (idem : option string) (st : State) (r : Response),
     (∀ rq, transport w (send_ix st) rq = Responded r) →
     classify (Some (status_code r)) None ≠ Retryable →
     ∃ st' rq,
       request w c method path params json_body headers idem st = Some (Ok r, st') ∧
       trace st' = trace st ++ [Sent rq]).
Proof.
  split; [|split; [|split; [|split; [|split]]]].
  - intros status e. split; [done|]. by apply classify_retryable_iff.
  - intros s Hs. apply retryable_status_spec in Hs.
    assert (H : is_retryable (Some s) None = true) by by apply bool_decide_eq_true_2.
    split; [done|]. by apply classify_retryable_iff.
  - intros s Hs. unfold classify.
    rewrite bool_decide_eq_false_2 by lia.
    by rewrite bool_decide_eq_true_2 by by apply non_retryable_status_spec.
  - intros s Hs. unfold classify. by rewrite bool_decide_eq_true_2 by lia.
  - intros s H2 Hr. rewrite <- retryable_status_spec in Hr.
    assert (H : is_retryable (Some s) None = false) by by apply bool_decide_eq_false_2.
    split; [done|]. unfold classify. rewrite H.
    by repeat case_bool_decide; try lia.
  - intros w c method path params json_body headers idem st r Hsend Hcl.
    rewrite classify_retryable_iff in Hcl. apply not_true_is_false in Hcl.
    assert (Hnr : status_code r ∉ RETRYABLE_STATUS).
    { intros Hin. simpl in Hcl. by rewrite bool_decide_eq_true_2 in Hcl. }
    destruct (decide (200 ≤ status_code r < 300)) as [H2|H2].
    { apply request_first_return. intros rq. rewrite Hsend.
      by apply try_exit_success. }
    destruct (decide (status_code r ∈ NON_RETRYABLE_STATUS)) as [Hn|Hn].
    { apply request_first_return. intros rq. rewrite Hsend.
      by apply try_exit_non_retryable. }
    destruct (try_exit_other w r None H2 Hn Hnr) as [Hexit Hnot].
    eapply request_first_not_retryable; [|exact Hnot].
    intros rq. by rewrite Hsend.
Qed.

Lemma classify_spec_witness :
  classify (Some 503) (Some timeout_exc) = Retryable ∧
  classify (Some 429) None = Retryable ∧
  classify (Some 404) None = NonRetryable ∧
  classify (Some 204) None = Success ∧
  classify (Some 500) None = NonRetryable ∧
  ∃ st' rq,
    request (sample_world [] (Responded (plain 500))) (sample_client 3)
      "GET" "/configs" None None None None st0 = Some (Ok (plain 500), st') ∧
    trace st' = trace st0 ++ [Sent rq].
Proof.
  destruct classify_spec as (Hexc & Hretry & Hnon & H2xx & Hother & Hterminal).
  split; [apply Hexc|].
  split; [apply Hretry; lia|].
  split; [apply Hnon; lia|].
  split; [apply H2xx; lia|].
  split; [apply Hother; lia|].
  apply Hterminal; [intros rq; reflexivity|].
  vm_compute. discriminate.
Defined.

(** ** Retry-After *)

Section RetryAfter.
Context (w : World).

Lemma retry_after_ms_of_hint (r : Response) (ms : Z) :
  status_code r ∈ RETRYABLE_STATUS → retry_after_hint w r ms →
  retry_after_ms_of w r = Ok ms.
Proof.
  intros Hs (ra & x & Hget & Hne & Hx & Hms & _).
  unfold retry_after_ms_of. rewrite bool_decide_eq_true_2, Hget by done.
  destruct ra; [done|]. simpl. by rewrite Hx, Hms.
Qed.

Lemma retry_after_ms_of_no_hint (r : Response) :
  no_retry_after_hint w r → ∃ ms, retry_after_ms_of w r = Ok ms ∧ ms ≤ 0.
Proof.
  unfold retry_after_ms_of. case_bool_decide; [|exists 0; split; [done|lia]].
  intros [->|[->|(ra & -> & Hra)]]; [exists 0; split; [done|lia] ..|].
  destruct (truthy ra); [|exists 0; split; [done|lia]].
  destruct Hra as [->|[->|(x & ms & -> & -> & Hms)]].
  - exists 0. split; [done|lia].
  - exists 0. split; [done|lia].
  - by exists ms.
Qed.

End RetryAfter.

(** C5, as stated, fails: "0" is read as a number of seconds, yet a 429
    with [Retry-After: 0] is followed by the jittered exponential delay
    (here half a second), not by the hint of zero seconds. *)
Lemma retry_after_zero_counterexample :
  ∃ st' rq1 d rq2,
    request (sample_world [Responded (with_retry_after 429 "0")]
                          (Responded (plain 200)))
      (sample_client 3) "GET" "/configs" None None None None st0
      = Some (Ok (plain 200), st') ∧
    float_of_str (sample_world [] (Responded (plain 200))) "0"
      = Some (S754_zero false) ∧
    trace st' = [Sent rq1; Slept d; Sent rq2] ∧
    d = jitter (default_exp 1) f0_5 ∧
    d = F64.of_dyadic 1 (-1) ∧
    d ≠ hint_delay 0.
Proof.
  destruct (request _ _ _ _ _ _ _ _ st0) as [[res st']|] eqn:Hcall;
    vm_compute in Hcall; [|discriminate].
  injection Hcall as <- <-.
  eexists _, _, _, _. split; [reflexivity|].
  split; [vm_compute; reflexivity|].
  split; [vm_compute; reflexivity|].
  split; [vm_compute; reflexivity|].
  split; [vm_compute; reflexivity|].
  vm_compute. discriminate.
Qed.

(** C5, amended — On a retryable response below the attempt limit: when
    the Retry-After value is read by [float()] and amounts to at least one
    millisecond, the delay slept before the retry is that hint capped at
    ten seconds, [min(10000, ms) / 1000.0], and no random number is drawn;
    when the value is absent, empty, malformed, or below one millisecond
    (zero or negative), the delay is the jittered exponential one for the
    current attempt.  A hint of ten seconds or more gives exactly 10.0
    seconds, that is 10000 ms. *)
Theorem retry_after_hint_or_backoff (w : World) (c : SyndigoClient)
    (method url : string) (params json_body : option Any)
    (headers : option (gmap string string)) (idem : option string)
    (attempt : Z) (resp0 : option Response) (st : State) (r : Response) :
  let rq := attempt_request c method url params json_body headers idem
              (uuid4 w (uuid_ix st)) in
  transport w (send_ix st) rq = Responded r →
  status_code r ∈ RETRYABLE_STATUS →
  attempt < max_attempts c →
  (∀ ms, retry_after_hint w r ms →
     iteration w c method url params json_body headers idem attempt resp0 st =
       (Ok (Again (Some r)),
        slept_state (sent_state (uuid_state st) rq) (hint_delay ms))) ∧
  (no_retry_after_hint w r →
   ∀ exp, backoff_exp attempt f0_5 f4_0 = Ok exp →
     iteration w c method url params json_body headers idem attempt resp0 st =
       (Ok (Again (Some r)),
        slept_state (drawn_state (sent_state (uuid_state st) rq))
          (jitter exp (random w (rand_ix st))))) ∧
  (∀ ms, hint_delay ms = F64.div (F64.of_dyadic (Z.min 10000 ms) 0) f1000) ∧
  (∀ ms, 10000 ≤ ms →
     hint_delay ms = F64.of_dyadic 10 0 ∧
     int_of_float (F64.mul (hint_delay ms) f1000) = Ok 10000).
Proof.
  intros rq Hsend Hstatus Hlt.
  destruct (status_sets_disjoint _ Hstatus) as [Hn H2].
  assert (Hret : is_retryable (Some (status_code r)) None = true)
    by by apply bool_decide_eq_true_2.
  split; [|split; [|split]].
  - intros ms Hhint. rewrite iteration_eq. fold rq. rewrite Hsend.
    unfold try_exit. rewrite (retry_after_ms_of_hint w r ms) by done.
    rewrite !bool_decide_eq_false_2 by done.
    rewrite retry_decision_retry by done.
    destruct Hhint as (_ & _ & _ & _ & _ & _ & Hpos).
    by rewrite next_delay_hint by done.
  - intros Hno exp Hexp. rewrite iteration_eq. fold rq. rewrite Hsend.
    unfold try_exit.
    destruct (retry_after_ms_of_no_hint w r Hno) as (ms & -> & Hms).
    rewrite !bool_decide_eq_false_2 by done.
    rewrite retry_decision_retry by done.
    by rewrite next_delay_backoff, Hexp by done.
  - done.
  - intros ms Hms. unfold hint_delay. rewrite Z.min_l by done.
    split; vm_compute; reflexivity.
Qed.

Lemma retry_after_hint_or_backoff_witness :
  let w := sample_world [Responded (with_retry_after 429 "120")]
                        (Responded (with_retry_after 429 "soon")) in
  let c := sample_client 3 in
  let rq k := attempt_request c "GET" "https://api.example.test/v1/configs"
                None None None None (sample_uuid k) in
  iteration w c "GET" "https://api.example.test/v1/configs" None None None None
    1 None st0 =
    (Ok (Again (Some (with_retry_after 429 "120"))),
     mkState 1 0 1 [Sent (rq 0%nat); Slept (F64.of_dyadic 10 0)]) ∧
  iteration w c "GET" "https://api.example.test/v1/configs" None None None None
    2 None (mkState 1 0 1 []) =
    (Ok (Again (Some (with_retry_after 429 "soon"))),
     mkState 2 1 2 [Sent (rq 1%nat); Slept (F64.of_dyadic 1 0)]).
Proof.
  intros w c rq. split.
  - destruct (retry_after_hint_or_backoff w c "GET"
                "https://api.example.test/v1/configs" None None None None
                1 None st0 (with_retry_after 429 "120"))
      as (Hhint & _ & _ & Hcap).
    + reflexivity.
    + apply retryable_status_spec. simpl. lia.
    + simpl. lia.
    + rewrite (Hhint 120000).
      * destruct (Hcap 120000 ltac:(lia)) as [-> _]. reflexivity.
      * exists "120", (F64.of_dyadic 120 0).
        split; [reflexivity|]. split; [discriminate|].
        split; [vm_compute; reflexivity|].
        split; [vm_compute; reflexivity|lia].
  - destruct (retry_after_hint_or_backoff w c "GET"
                "https://api.example.test/v1/configs" None None None None
                2 None (mkState 1 0 1 []) (with_retry_after 429 "soon"))
      as (_ & Hno & _ & _).
    + reflexivity.
    + apply retryable_status_spec. simpl. lia.
    + simpl. lia.
    + rewrite (Hno ltac:(right; right; exists "soon"; split; [reflexivity|left; reflexivity])
                 (F64.of_dyadic 1 0) ltac:(vm_compute; reflexivity)).
      vm_compute. reflexivity.
Defined.

(** ** The overflow of the backoff calculator *)

Lemma backoff_delay_overflow (w : World) (attempt : Z) (base cap : spec_float)
    (st : State) :
  1025 ≤ attempt →
  backoff_delay w attempt base cap st =
  (Raise (PyExc OverflowError "int too large to convert to float"), st).
Proof.
  intros Ha. unfold backoff_delay, mbind, M_bind, lift.
  by rewrite backoff_exp_overflow.
Qed.

(** Up to attempt 1024 the claim of the interval holds in binary64: for
    every draw [k / 2^53] of [random.random()], [backoff_delay] returns a
    finite delay between [0.5 * exp] and [1.5 * exp], where [exp] is the
    capped exponential [min(cap, base * 2 ** (attempt - 1))]. *)
Lemma backoff_delay_interval (w : World) (attempt k : Z) (st : State) :
  1 ≤ attempt ≤ 1024 → 0 ≤ k < 2 ^ 53 →
  random w (rand_ix st) = F64.of_dyadic k (-53) →
  ∃ exp d,
    backoff_exp attempt f0_5 f4_0 = Ok exp ∧
    backoff_delay w attempt f0_5 f4_0 st = (Ok d, drawn_state st) ∧
    F64.leb (F64.mul exp f0_5) d = true ∧
    F64.leb d (F64.mul exp f1_5) = true ∧
    F64.is_finite d = true.
Proof.
  intros Ha Hk Hu.
  exists (default_exp attempt), (jitter (default_exp attempt) (F64.of_dyadic k (-53))).
  split; [by apply backoff_exp_table|]. split.
  { unfold backoff_delay, uniform, draw_random, mbind, M_bind, mret, M_ret, lift.
    rewrite backoff_exp_table by done. by rewrite Hu. }
  assert (Hexp : ∃ j, -1 ≤ j ≤ 2 ∧
            default_exp attempt = S754_finite false two52 (j - 52)).
  { unfold default_exp.
    destruct (attempt =? 1); [by exists (-1)|].
    destruct (attempt =? 2); [by exists 0|].
    destruct (attempt =? 3); [by exists 1|].
    by exists 2. }
  destruct Hexp as (j & Hj & ->).
  apply jitter_interval; lia.
Qed.

(** C4 — at attempt 1025 [backoff_delay] with the defaults returns no
    delay: [0.5 * (2 ** 1024)] raises [OverflowError] before the jitter is
    drawn, in every world and state. *)
Theorem backoff_delay_1025_raises (w : World) (st : State) :
  backoff_delay w 1025 f0_5 f4_0 st =
  (Raise (PyExc OverflowError "int too large to convert to float"), st).
Proof. apply backoff_delay_overflow. lia. Qed.

(** ** The overflow in a call

    Attempt 1025 cannot be followed by a jittered delay: a call that
    gets there without a Retry-After hint ends with [OverflowError]. *)

Section Overflow.
Context (w : World) (c : SyndigoClient) (method url : string)
  (params json_body : option Any) (headers : option (gmap string string))
  (idem : option string).

Local Abbreviation loop := (fun fuel => request_loop w fuel c method url params json_body headers idem).
Local Abbreviation body := (iteration w c method url params json_body headers idem).
Local Abbreviation rq_of := (fun st => attempt_request c method url params json_body headers idem
                               (uuid4 w (uuid_ix st))).

Lemma no_hint_retryable (o : Outcome) :
  no_hint_outcome w o → retryable_outcome o.
Proof. destruct o as [r|e]; [by intros [H _]|done]. Qed.

Lemma try_exit_no_hint (o : Outcome) (resp0 : option Response) :
  no_hint_outcome w o →
  ∃ status exc ms,
    try_exit w o resp0 = FallThrough (resp_after o resp0) status exc ms ∧
    is_retryable status exc = true ∧ ms ≤ 0.
Proof.
  destruct o as [r|e]; simpl.
  - intros [Hs Hno].
    destruct (status_sets_disjoint _ Hs) as [Hn H2].
    destruct (retry_after_ms_of_no_hint w r Hno) as (ms & -> & Hms).
    rewrite !bool_decide_eq_false_2 by done.
    eexists _, _, _. split; [done|]. split; [|done].
    simpl. by apply bool_decide_eq_true_2.
  - intros _. eexists _, _, _. split; [done|]. split; [done|lia].
Qed.

Lemma iteration_overflow (attempt : Z) (resp0 : option Response) (st : State) :
  no_hint_outcome w (transport w (send_ix st) (rq_of st)) →
  1025 ≤ attempt < max_attempts c →
  body attempt resp0 st =
    (Raise (PyExc OverflowError "int too large to convert to float"),
     sent_state (uuid_state st) (rq_of st)).
Proof.
  intros Hno Ha. rewrite iteration_eq.
  destruct (try_exit_no_hint _ resp0 Hno) as (status & exc & ms & -> & His & Hms).
  rewrite retry_decision_retry by (done || lia).
  rewrite next_delay_backoff by done.
  by rewrite backoff_exp_overflow by lia.
Qed.

Lemma loop_overflow (k : nat) :
  ∀ (fuel : nat) (attempt : Z) (resp : option Response) (st : State),
  (∀ i rq, no_hint_outcome w (transport w i rq)) →
  1 ≤ attempt → attempt + Z.of_nat k = 1025 → 1025 < max_attempts c →
  (k < fuel)%nat →
  ∃ st' evs,
    loop fuel attempt resp st =
      Some (Raise (PyExc OverflowError "int too large to convert to float"), st') ∧
    trace st' = trace st ++ evs ∧
    length (sent_of evs) = S k ∧ length (slept_of evs) = k.
Proof.
  induction k as [|k IH]; intros fuel attempt resp st Hall Ha Hk Hmax Hfuel.
  - destruct fuel as [|fuel]; [lia|]. rewrite request_loop_S.
    rewrite iteration_overflow by (auto || lia).
    by exists (sent_state (uuid_state st) (rq_of st)), [Sent (rq_of st)].
  - destruct fuel as [|fuel]; [lia|]. rewrite request_loop_S.
    destruct (iteration_retry w c method url params json_body headers idem
                attempt resp st (no_hint_retryable _ (Hall _ _))
                ltac:(lia) ltac:(lia))
      as (d & st1 & -> & Hu & Hs & Ht).
    destruct (IH fuel (attempt + 1)
                (resp_after (transport w (send_ix st) (rq_of st)) resp) st1
                Hall ltac:(lia) ltac:(lia) Hmax ltac:(lia))
      as (st' & evs & Hloop & Htr & Hsent & Hslept).
    exists st', ([Sent (rq_of st); Slept d] ++ evs).
    split; [done|].
    rewrite Htr, Ht, <- app_assoc, sent_of_app, slept_of_app. simpl.
    repeat split; auto; lia.
Qed.

End Overflow.

(** With a limit above 1025 attempts, a call whose every attempt is
    retryable and carries no Retry-After hint raises [OverflowError]
    after 1025 attempts and 1024 delays. *)
Lemma request_overflow (w : World) (c : SyndigoClient) (method path : string)
    (params json_body : option Any) (headers : option (gmap string string))
    (idem : option string) (st : State) :
  1025 < max_attempts c →
  (∀ i rq, no_hint_outcome w (transport w i rq)) →
  ∃ st',
    request w c method path params json_body headers idem st =
      Some (Raise (PyExc OverflowError "int too large to convert to float"), st') ∧
    length (new_sent (trace st) (trace st')) = 1025%nat ∧
    length (new_slept (trace st) (trace st')) = 1024%nat.
Proof.
  intros Hmax Hall. unfold request.
  destruct (loop_overflow w c method (base_url c +:+ "/" +:+ lstrip slash path)
              params json_body headers idem 1024
              (Z.to_nat (Z.max 1 (max_attempts c))) 1 None st Hall)
    as (st' & evs & Hloop & Htr & Hsent & Hslept); try lia.
  exists st'. split; [done|]. split.
  - rewrite (new_sent_app (trace st) (sent_of evs)); [done|].
    by rewrite Htr, sent_of_app.
  - rewrite (new_slept_app (trace st) (slept_of evs)); [done|].
    by rewrite Htr, slept_of_app.
Qed.

(** C2 — with [max_attempts = 1026] and a transport that answers 503 to
    every attempt, the call does not return the last 503 response: the
    delay after attempt 1025 is not computed, and the call raises
    [OverflowError] after 1025 attempts and 1024 delays. *)
Theorem all_503_raises_at_1026 :
  ∃ st',
    request (sample_world [] (Responded (plain 503))) (sample_client 1026)
      "GET" "/configs" None None None None st0
      = Some (Raise (PyExc OverflowError "int too large to convert to float"), st') ∧
    length (new_sent (trace st0) (trace st')) = 1025%nat ∧
    length (new_slept (trace st0) (trace st')) = 1024%nat.
Proof.
  apply request_overflow; [simpl; lia|].
  intros i rq. simpl. split.
  - apply retryable_status_spec. simpl. lia.
  - by left.
Qed.

(** C3 — with [max_attempts = 1026] and a transport that fails on every
    attempt, the call does not raise the error that wraps the last
    transport exception: it raises [OverflowError] after 1025 attempts
    and 1024 delays. *)
Theorem all_failed_raises_at_1026 :
  ∃ st',
    request (sample_world [] (Failed timeout_exc)) (sample_client 1026)
      "GET" "/configs" None None None None st0
      = Some (Raise (PyExc OverflowError "int too large to convert to float"), st') ∧
    length (new_sent (trace st0) (trace st')) = 1025%nat ∧
    length (new_slept (trace st0) (trace st')) = 1024%nat.
Proof.
  apply request_overflow; [simpl; lia|].
  intros i rq. exact I.
Qed.

(** * Further properties of the executor *)

(** ** One iteration, in full *)

Lemma backoff_exp_raise (attempt : Z) (e : py_exception) :
  backoff_exp attempt f0_5 f4_0 = Raise e → e = overflow_exc ∧ 1025 ≤ attempt.
Proof.
  intros H. destruct (Z.le_gt_cases 1025 attempt) as [Hge|Hlt].
  - rewrite backoff_exp_overflow in H by done. by injection H as <-.
  - destruct (Z.le_gt_cases 1 attempt) as [H1|H0].
    + rewrite backoff_exp_table in H by lia. discriminate.
    + unfold backoff_exp, pow2 in H.
      destruct (Z.leb_spec 0 (attempt - 1)); [lia|]. discriminate.
Qed.

Section IterationRun.
Context (w : World) (c : SyndigoClient) (method url : string)
  (params json_body : option Any) (headers : option (gmap string string))
  (idem : option string).

Local Abbreviation body := (iteration w c method url params json_body headers idem).
Local Abbreviation rq_of := (fun st => attempt_request c method url params json_body headers idem
                               (uuid4 w (uuid_ix st))).

(** Where the [try] statement falls through, [resp] is the latest
    response; a fall-through that is retryable comes from a retryable
    outcome, and one without a response from a transport failure. *)
Lemma try_exit_cases (o : Outcome) (resp0 : option Response) :
  (∃ r, try_exit w o resp0 = Return r ∧ o = Responded r ∧
        status_code r ∉ RETRYABLE_STATUS) ∨
  (∃ status exc ms,
     try_exit w o resp0 = FallThrough (resp_after o resp0) status exc ms ∧
     (is_retryable status exc = true ↔ retryable_outcome o) ∧
     (resp_after o resp0 = None →
      ∃ e, o = Failed e ∧ resp0 = None ∧ exc = Some e)).
Proof.
  destruct o as [r|e]; simpl.
  - destruct (retry_after_ms_of w r) as [ms|e] eqn:Hra.
    + case_bool_decide as H2.
      { left. exists r. split; [done|]. split; [done|].
        rewrite retryable_status_spec. lia. }
      case_bool_decide as Hn.
      { left. exists r. split; [done|]. split; [done|].
        intros Hr. by destruct (status_sets_disjoint _ Hr). }
      right. eexists _, _, _. split; [done|]. split; [|done].
      simpl. apply bool_decide_eq_true.
    + right. eexists _, _, _. split; [done|]. split; [|done].
      simpl. split; [|done]. intros _.
      by destruct (retry_after_ms_of_raise w r e Hra).
  - right. eexists _, _, _. split; [done|]. split; [done|].
    intros ->. eauto.
Qed.

(** The four ways in which one iteration ends. *)
Lemma iteration_run (attempt : Z) (resp0 : option Response)
    (st : State) (res : result LoopExit) (st' : State) :
  let rq := rq_of st in
  let o := transport w (send_ix st) rq in
  body attempt resp0 st = (res, st') →
  uuid_ix st' = S (uuid_ix st) ∧ send_ix st' = S (send_ix st) ∧
  ((∃ r, res = Ok (Stop r) ∧ resp_after o resp0 = Some r ∧
         (max_attempts c ≤ attempt ∨ ¬ retryable_outcome o) ∧
         rand_ix st' = rand_ix st ∧ trace st' = trace st ++ [Sent rq]) ∨
   (∃ e, res = Raise (no_response_exc e) ∧ o = Failed e ∧ resp0 = None ∧
         max_attempts c ≤ attempt ∧
         rand_ix st' = rand_ix st ∧ trace st' = trace st ++ [Sent rq]) ∨
   (res = Raise overflow_exc ∧ 1025 ≤ attempt < max_attempts c ∧
    retryable_outcome o ∧
    rand_ix st' = rand_ix st ∧ trace st' = trace st ++ [Sent rq]) ∨
   (∃ d, res = Ok (Again (resp_after o resp0)) ∧ attempt < max_attempts c ∧
         retryable_outcome o ∧ delay_after w attempt d ∧
         (rand_ix st ≤ rand_ix st' ≤ S (rand_ix st))%nat ∧
         trace st' = trace st ++ [Sent rq; Slept d])).
Proof.
  intros rq o. rewrite iteration_eq. fold rq o.
  destruct (try_exit_cases o resp0)
    as [(r & -> & Ho & Hnr)|(status & exc & ms & -> & Hretry & Hnone)].
  { intros [= <- <-]. simpl. split; [done|]. split; [done|]. left.
    exists r. rewrite Ho. simpl. repeat split; try done.
    right. exact Hnr. }
  destruct (decide (max_attempts c ≤ attempt ∨ is_retryable status exc = false))
    as [Hstop|Hgo].
  - rewrite retry_decision_stop by done.
    destruct (resp_after o resp0) as [r|] eqn:Hresp.
    + intros [= <- <-]. simpl. split; [done|]. split; [done|]. left.
      exists r. repeat split; try done.
      destruct Hstop as [?|Hf]; [by left|right].
      rewrite <- Hretry, Hf. done.
    + destruct (Hnone eq_refl) as (e & Ho & -> & ->).
      intros [= <- <-]. simpl. split; [done|]. split; [done|]. right; left.
      exists e. repeat split; try done.
      destruct Hstop as [?|Hf]; [done|]. simpl in Hf. done.
  - assert (attempt < max_attempts c ∧ is_retryable status exc = true)
      as [Hlt His].
    { split; [lia|]. destruct (is_retryable status exc); [done|].
      destruct Hgo. by right. }
    rewrite retry_decision_retry by done.
    destruct (Z.lt_ge_cases 0 ms) as [Hms|Hms].
    + rewrite next_delay_hint by done.
      intros [= <- <-]. simpl. split; [done|]. split; [done|].
      right; right; right. exists (hint_delay ms).
      repeat split; try done; try lia.
      * by apply Hretry.
      * left. eauto.
      * by rewrite <- app_assoc.
    + rewrite next_delay_backoff by lia.
      destruct (backoff_exp attempt f0_5 f4_0) as [exp|e] eqn:Hexp.
      * intros [= <- <-]. simpl. split; [done|]. split; [done|].
        right; right; right. eexists.
        repeat split; try done; try lia.
        -- by apply Hretry.
        -- right. eauto.
        -- by rewrite <- app_assoc.
      * destruct (backoff_exp_raise _ _ Hexp) as [-> Hge].
        intros [= <- <-]. simpl. split; [done|]. split; [done|].
        right; right; left. repeat split; try done; try lia.
        by apply Hretry.
Qed.

End IterationRun.

(** ** The trace of a call *)

Lemma sent_of_alternate (reqs : list Request) (ds : list spec_float) :
  length reqs = S (length ds) → sent_of (alternate reqs ds) = reqs.
Proof.
  revert ds. induction reqs as [|rq reqs IH]; intros ds Hlen; [done|].
  destruct ds as [|d ds]; simpl in *.
  - destruct reqs; [done|simpl in Hlen; lia].
  - f_equal. apply IH. lia.
Qed.

Lemma slept_of_alternate (reqs : list Request) (ds : list spec_float) :
  length reqs = S (length ds) → slept_of (alternate reqs ds) = ds.
Proof.
  revert ds. induction reqs as [|rq reqs IH]; intros ds Hlen; [done|].
  destruct ds as [|d ds]; simpl in *; [done|].
  f_equal. apply IH. lia.
Qed.

Lemma alternate_last (reqs : list Request) (ds : list spec_float) :
  length reqs = S (length ds) →
  ∃ evs rq, alternate reqs ds = evs ++ [Sent rq] ∧ last reqs = Some rq.
Proof.
  revert ds. induction reqs as [|rq reqs IH]; intros ds Hlen; [done|].
  destruct ds as [|d ds]; simpl in *.
  - destruct reqs; [|simpl in Hlen; lia]. by exists [], rq.
  - destruct (IH ds ltac:(lia)) as (evs & rq' & -> & Hlast).
    exists (Sent rq :: Slept d :: evs), rq'. split; [done|].
    destruct reqs; [done|]. done.
Qed.

Lemma outcomes_of_cons (w : World) (ix : nat) (rq : Request) (reqs : list Request) :
  outcomes_of w ix (rq :: reqs) =
  transport w ix rq :: outcomes_of w (S ix) reqs.
Proof.
  unfold outcomes_of. rewrite imap_cons, Nat.add_0_r. f_equal.
  apply imap_ext. intros i x _. simpl. f_equal. lia.
Qed.

Lemma outcomes_of_length (w : World) (ix : nat) (reqs : list Request) :
  length (outcomes_of w ix reqs) = length reqs.
Proof. apply length_imap. Qed.

Lemma outcomes_of_lookup (w : World) (ix : nat) (reqs : list Request) (i : nat) :
  outcomes_of w ix reqs !! i = (λ rq, transport w (ix + i)%nat rq) <$> reqs !! i.
Proof. unfold outcomes_of. by rewrite list_lookup_imap. Qed.

Section LoopRun.
Context (w : World) (c : SyndigoClient) (method url : string)
  (params json_body : option Any) (headers : option (gmap string string))
  (idem : option string).

Local Abbreviation loop := (fun fuel => request_loop w fuel c method url params json_body headers idem).
Local Abbreviation body := (iteration w c method url params json_body headers idem).
Local Abbreviation rq_no := (fun k : nat => attempt_request c method url params json_body headers idem
                               (uuid4 w k)).

(** The goal of [request_loop_run] for a run of one attempt, up to the
    result. *)
Local Ltac single_attempt :=
  match goal with
  | Hos : ∀ tl, outcomes_of _ _ (?rq :: tl) = _, Ht : trace _ = _ |- _ =>
      exists [rq], []; rewrite Hos; simpl;
      rewrite Nat.add_0_r, Z.add_0_r;
      split; [by rewrite Ht|];
      split; [done|]; split; [done|]; split; [lia|]; split; [lia|];
      split; [lia|]; split; [by left|]; split; [done|];
      split; [intros ? ? ?; lia|]
  end.

(** The run of the loop from any iteration on: the trace alternates
    requests and delays and ends with a request; what is returned is the
    latest response received; what is raised is the [RuntimeError] for a
    call without any response, or the overflow of the backoff. *)
Lemma request_loop_run (fuel : nat) :
  ∀ (attempt : Z) (resp : option Response) (st : State)
    (res : result Response) (st' : State),
  loop fuel attempt resp st = Some (res, st') →
  ∃ reqs ds,
    trace st' = trace st ++ alternate reqs ds ∧
    length reqs = S (length ds) ∧
    reqs = map (λ i, rq_no (uuid_ix st + i)%nat) (seq 0 (length reqs)) ∧
    send_ix st' = (send_ix st + length reqs)%nat ∧
    uuid_ix st' = (uuid_ix st + length reqs)%nat ∧
    (rand_ix st ≤ rand_ix st' ≤ rand_ix st + length ds)%nat ∧
    (ds = [] ∨ attempt + Z.of_nat (length ds) ≤ max_attempts c) ∧
    (∀ (i : nat) d, ds !! i = Some d → delay_after w (attempt + Z.of_nat i) d) ∧
    let os := outcomes_of w (send_ix st) reqs in
    (∀ (i : nat) o, (i < length ds)%nat → os !! i = Some o → retryable_outcome o) ∧
    match res with
    | Ok r =>
        latest_response os resp = Some r ∧
        (max_attempts c ≤ attempt + Z.of_nat (length ds) ∨
         ∃ o, last os = Some o ∧ ¬ retryable_outcome o)
    | Raise e =>
        (latest_response os resp = None ∧
         max_attempts c ≤ attempt + Z.of_nat (length ds) ∧
         ∃ e0, last os = Some (Failed e0) ∧ e = no_response_exc e0) ∨
        (e = overflow_exc ∧
         1025 ≤ attempt + Z.of_nat (length ds) < max_attempts c ∧
         Forall retryable_outcome os)
    end.
Proof.
  induction fuel as [|fuel IH]; intros attempt resp st res st'; [done|].
  rewrite request_loop_S.
  destruct (body attempt resp st) as [r1 st1] eqn:Hit.
  apply iteration_run in Hit as (Hu & Hs & Hcases).
  set (rq := rq_no (uuid_ix st)) in *.
  set (o := transport w (send_ix st) rq) in *.
  assert (∀ tl, outcomes_of w (send_ix st) (rq :: tl) =
                o :: outcomes_of w (S (send_ix st)) tl) as Hos.
  { intros tl. apply outcomes_of_cons. }
  destruct Hcases as [(r & -> & Hresp & Hwhy & Hr & Ht)|
                      [(e & -> & Ho & -> & Hmax & Hr & Ht)|
                       [(-> & Hrange & Hretry & Hr & Ht)|
                        (d & -> & Hlt & Hretry & Hdelay & Hr & Ht)]]].
  - intros [= <- <-]. single_attempt.
    split; [done|]. destruct Hwhy as [?|Hnot]; [by left|right; eauto].
  - intros [= <- <-]. single_attempt.
    left. rewrite Ho. simpl. split; [done|]. split; [done|]. eauto.
  - intros [= <- <-]. single_attempt.
    right. split; [done|]. split; [lia|]. by repeat constructor.
  - intros Hloop.
    apply IH in Hloop
      as (reqs & ds & Htr & Hlen & Hreqs & Hsend & Huuid & Hrand & Hbound &
          Hdelays & Hearly & Hres).
    exists (rq :: reqs), (d :: ds). rewrite Hos. simpl length.
    split. { rewrite Htr, Ht, <- app_assoc. done. }
    split. { lia. }
    split.
    { rewrite (map_seq_from rq_no (uuid_ix st) (length reqs)).
      fold rq. f_equal. rewrite Hu in Hreqs. exact Hreqs. }
    split. { lia. }
    split. { lia. }
    split. { lia. }
    split. { right. destruct Hbound as [->|Hb]; simpl; lia. }
    split.
    { intros [|i] d'; simpl.
      - intros [= <-]. by rewrite Z.add_0_r.
      - intros Hd. apply Hdelays in Hd.
        by replace (attempt + Z.of_nat (S i)) with (attempt + 1 + Z.of_nat i) by lia. }
    rewrite Hs in Hearly, Hres.
    split.
    { intros [|i] o'; simpl.
      - by intros _ [= <-].
      - intros Hi. apply Hearly. lia. }
    assert (∀ P : Outcome → Prop,
              (∃ x, last (outcomes_of w (S (send_ix st)) reqs) = Some x ∧ P x) →
              ∃ x, last (o :: outcomes_of w (S (send_ix st)) reqs) = Some x ∧ P x)
      as Hlast.
    { intros P (x & Hx & HP). exists x. split; [|done].
      destruct (outcomes_of w (S (send_ix st)) reqs); [done|]. done. }
    replace (attempt + Z.of_nat (S (length ds)))
      with (attempt + 1 + Z.of_nat (length ds)) by lia.
    destruct res as [r|e].
    + destruct Hres as [Hlatest Hwhy]. split; [done|].
      destruct Hwhy as [?|Hnot]; [by left|right].
      by apply (Hlast (λ x, ¬ retryable_outcome x)).
    + destruct Hres as [(Hlatest & Hmax & Hexc)|(-> & Hrange & Hall)].
      * left. split; [done|]. split; [done|].
        destruct Hexc as (e0 & Hl & ->). exists e0. split; [|done].
        destruct (Hlast (λ x, x = Failed e0)) as (x & Hx & ->); eauto.
      * right. split; [done|]. split; [done|]. by constructor.
Qed.

End LoopRun.

Lemma new_of_alternate (tr tr' : list Event) (reqs : list Request)
    (ds : list spec_float) :
  tr' = tr ++ alternate reqs ds → length reqs = S (length ds) →
  new_sent tr tr' = reqs ∧ new_slept tr tr' = ds.
Proof.
  intros -> Hlen. split.
  - apply new_sent_app. by rewrite sent_of_app, sent_of_alternate.
  - apply new_slept_app. by rewrite slept_of_app, slept_of_alternate.
Qed.

(** The latest response of a run is the response of its last attempt
    that was answered, or the initial one when none was. *)
Lemma latest_response_spec (os : list Outcome) (resp0 : option Response) :
  match latest_response os resp0 with
  | Some r =>
      (∃ i : nat, os !! i = Some (Responded r) ∧
         ∀ (j : nat) o, (i < j)%nat → os !! j = Some o → ∃ e, o = Failed e) ∨
      (resp0 = Some r ∧ Forall (λ o, ∃ e, o = Failed e) os)
  | None => resp0 = None ∧ Forall (λ o, ∃ e, o = Failed e) os
  end.
Proof.
  revert resp0. induction os as [|o os IH]; intros resp0.
  { simpl. destruct resp0; [right|]; done. }
  change (latest_response (o :: os) resp0)
    with (latest_response os (resp_after o resp0)).
  specialize (IH (resp_after o resp0)).
  destruct (latest_response os (resp_after o resp0)) as [r|].
  - destruct IH as [(i & Hi & Hlater)|[Hresp Hall]].
    + left. exists (S i). split; [done|].
      intros [|j] o' Hj; [lia|]. simpl. apply Hlater. lia.
    + destruct o as [r'|e]; simpl in Hresp.
      * injection Hresp as ->. left. exists 0%nat. split; [done|].
        intros [|j] o' Hj; [lia|]. simpl. intros Ho'.
        rewrite Forall_forall in Hall. apply Hall.
        by eapply list_elem_of_lookup_2.
      * right. split; [done|]. constructor; eauto.
  - destruct IH as [Hresp Hall]. destruct o as [r'|e]; [done|].
    simpl in Hresp. split; [done|]. constructor; eauto.
Qed.

(** X1 — Every call ends, and its trace has one shape: requests and
    delays alternate, starting and ending with a request, so that there
    is one delay fewer than requests; the number of requests is at least
    one and at most [max(1, max_attempts)]; each request draws one trace
    identifier and makes one call of the transport, and at most one
    random number is drawn per delay. *)
Theorem request_trace_shape (w : World) (c : SyndigoClient)
    (method path : string) (params json_body : option Any)
    (headers : option (gmap string string)) (idem : option string)
    (st : State) :
  ∃ res st' reqs ds,
    request w c method path params json_body headers idem st = Some (res, st') ∧
    trace st' = trace st ++ alternate reqs ds ∧
    new_sent (trace st) (trace st') = reqs ∧
    new_slept (trace st) (trace st') = ds ∧
    length reqs = S (length ds) ∧
    Z.of_nat (length reqs) ≤ Z.max 1 (max_attempts c) ∧
    send_ix st' = (send_ix st + length reqs)%nat ∧
    uuid_ix st' = (uuid_ix st + length reqs)%nat ∧
    (rand_ix st ≤ rand_ix st' ≤ rand_ix st + length ds)%nat.
Proof.
  destruct (request_total w c method path params json_body headers idem st)
    as [[res st'] Hcall].
  exists res, st'. pose proof Hcall as Hrun.
  apply request_loop_run in Hrun
    as (reqs & ds & Htr & Hlen & _ & Hsend & Huuid & Hrand & Hbound & _).
  exists reqs, ds.
  destruct (new_of_alternate _ _ _ _ Htr Hlen) as [Hs Hd].
  repeat (split; [done|]). split; [|done].
  destruct Hbound as [->|Hb]; simpl in *; lia.
Qed.

(** Runs the call of [request] in the goal: its result and final state
    are computed, and [H] keeps the equation of the call. *)
Ltac run_request H :=
  match goal with
  | |- context [request ?w ?c ?m ?p ?a ?b ?h ?i ?st] =>
      destruct (request w c m p a b h i st) as [[? ?]|] eqn:H;
      [ let Hv := fresh "Hv" in
        pose proof H as Hv; vm_compute in Hv; injection Hv as <- <-
      | vm_compute in H; discriminate ]
  end.

(** X2 — The response that a call returns is the latest response that
    the transport gave in this call: it answered one of the attempts,
    and every later attempt of the call failed in the transport.  (When
    the last attempts fail in the transport, an earlier response is
    returned instead of an error.) *)
Theorem request_returns_latest_response (w : World) (c : SyndigoClient)
    (method path : string) (params json_body : option Any)
    (headers : option (gmap string string)) (idem : option string)
    (st : State) (r : Response) (st' : State) :
  request w c method path params json_body headers idem st = Some (Ok r, st') →
  let reqs := new_sent (trace st) (trace st') in
  latest_response (outcomes_of w (send_ix st) reqs) None = Some r ∧
  ∃ (i : nat) rq,
    reqs !! i = Some rq ∧
    transport w (send_ix st + i)%nat rq = Responded r ∧
    ∀ (j : nat) rq', (i < j)%nat → reqs !! j = Some rq' →
      ∃ e, transport w (send_ix st + j)%nat rq' = Failed e.
Proof.
  intros Hcall reqs0.
  apply request_loop_run in Hcall
    as (reqs & ds & Htr & Hlen & _ & _ & _ & _ & _ & _ & _ & Hlatest & _).
  destruct (new_of_alternate _ _ _ _ Htr Hlen) as [Hs _].
  subst reqs0. rewrite Hs. split; [done|].
  pose proof (latest_response_spec (outcomes_of w (send_ix st) reqs) None) as Hspec.
  rewrite Hlatest in Hspec. destruct Hspec as [(i & Hi & Hlater)|[? _]]; [|done].
  rewrite outcomes_of_lookup in Hi.
  destruct (reqs !! i) as [rq|] eqn:Hrq; [|done]. injection Hi as Hi.
  exists i, rq. split; [done|]. split; [done|].
  intros j rq' Hj Hrq'. apply (Hlater j); [done|].
  by rewrite outcomes_of_lookup, Hrq'.
Qed.

Lemma request_returns_latest_response_witness :
  let w := sample_world [Responded (plain 503); Failed timeout_exc]
                        (Failed timeout_exc) in
  ∃ st',
    request w (sample_client 3) "GET" "/configs" None None None None st0
      = Some (Ok (plain 503), st') ∧
    length (new_sent (trace st0) (trace st')) = 3%nat ∧
    latest_response
      (outcomes_of w (send_ix st0) (new_sent (trace st0) (trace st'))) None
      = Some (plain 503).
Proof.
  intros w. run_request Hcall.
  eexists. split; [reflexivity|].
  split; [vm_compute; reflexivity|].
  apply (request_returns_latest_response w (sample_client 3) "GET" "/configs"
           None None None None st0 _ _ Hcall).
Defined.

(** X3 — Only two exceptions leave a call.  One is the [RuntimeError]
    that quotes the transport exception of the last attempt: it is raised
    only when every attempt of the call failed in the transport and the
    attempt limit is used up.  The other is the [OverflowError] of
    [backoff_delay], from attempt 1025 on and below the limit.  A
    transport exception itself never propagates. *)
Theorem request_raises_only (w : World) (c : SyndigoClient)
    (method path : string) (params json_body : option Any)
    (headers : option (gmap string string)) (idem : option string)
    (st : State) (e : py_exception) (st' : State) :
  request w c method path params json_body headers idem st = Some (Raise e, st') →
  let reqs := new_sent (trace st) (trace st') in
  let os := outcomes_of w (send_ix st) reqs in
  (Forall (λ o, ∃ e0, o = Failed e0) os ∧
   Z.of_nat (length reqs) = Z.max 1 (max_attempts c) ∧
   ∃ e0, last os = Some (Failed e0) ∧ e = no_response_exc e0) ∨
  (e = overflow_exc ∧
   1025 ≤ Z.of_nat (length reqs) < max_attempts c ∧
   Forall retryable_outcome os).
Proof.
  intros Hcall reqs0 os0.
  apply request_loop_run in Hcall
    as (reqs & ds & Htr & Hlen & _ & _ & _ & _ & Hbound & _ & _ & Hres).
  destruct (new_of_alternate _ _ _ _ Htr Hlen) as [Hs _].
  subst os0 reqs0. rewrite Hs.
  destruct Hres as [(Hlatest & Hmax & Hexc)|(-> & Hrange & Hall)].
  - left.
    pose proof (latest_response_spec (outcomes_of w (send_ix st) reqs) None) as Hspec.
    rewrite Hlatest in Hspec. destruct Hspec as [_ Hall].
    split; [done|]. split; [|done].
    destruct Hbound as [->|Hb]; simpl in *; lia.
  - right. split; [done|]. split; [lia|done].
Qed.

Lemma request_raises_only_witness :
  let w := sample_world [] (Failed timeout_exc) in
  ∃ st',
    request w (sample_client 2) "GET" "/configs" None None None None st0
      = Some (Raise (no_response_exc timeout_exc), st') ∧
    length (new_sent (trace st0) (trace st')) = 2%nat ∧
    (let reqs := new_sent (trace st0) (trace st') in
     let os := outcomes_of w (send_ix st0) reqs in
     (Forall (λ o, ∃ e0, o = Failed e0) os ∧
      Z.of_nat (length reqs) = Z.max 1 (max_attempts (sample_client 2)) ∧
      ∃ e0, last os = Some (Failed e0) ∧
            no_response_exc timeout_exc = no_response_exc e0) ∨
     (no_response_exc timeout_exc = overflow_exc ∧
      1025 ≤ Z.of_nat (length reqs) < max_attempts (sample_client 2) ∧
      Forall retryable_outcome os)).
Proof.
  intros w. run_request Hcall.
  eexists. split; [reflexivity|].
  split; [vm_compute; reflexivity|].
  apply (request_raises_only w (sample_client 2) "GET" "/configs"
           None None None None st0 _ _ Hcall).
Defined.

(** ** Retries followed by a final answer *)

Section RetryThenStop.
Context (w : World) (c : SyndigoClient) (method url : string)
  (params json_body : option Any) (headers : option (gmap string string))
  (idem : option string).

Local Abbreviation loop := (fun fuel => request_loop w fuel c method url params json_body headers idem).
Local Abbreviation body := (iteration w c method url params json_body headers idem).
Local Abbreviation rq_of := (fun st => attempt_request c method url params json_body headers idem
                               (uuid4 w (uuid_ix st))).

(** A response whose status is not in the retryable set ends the call,
    whatever the attempt number. *)
Lemma iteration_final (attempt : Z) (resp0 : option Response) (st : State)
    (r : Response) :
  transport w (send_ix st) (rq_of st) = Responded r →
  status_code r ∉ RETRYABLE_STATUS →
  body attempt resp0 st = (Ok (Stop r), sent_state (uuid_state st) (rq_of st)).
Proof.
  intros Ho Hnr. rewrite iteration_eq, Ho.
  destruct (decide (200 ≤ status_code r < 300)) as [H2|H2].
  { by rewrite try_exit_success. }
  destruct (decide (status_code r ∈ NON_RETRYABLE_STATUS)) as [Hn|Hn].
  { by rewrite try_exit_non_retryable. }
  destruct (try_exit_other w r resp0 H2 Hn Hnr) as [-> Hno].
  by rewrite retry_decision_stop by auto.
Qed.

Lemma loop_retry_then_final (k : nat) :
  ∀ (fuel : nat) (attempt : Z) (resp : option Response) (st : State)
    (r : Response),
  (∀ (i : nat) rq, (i < k)%nat →
     retryable_outcome (transport w (send_ix st + i)%nat rq)) →
  (∀ rq, transport w (send_ix st + k)%nat rq = Responded r) →
  status_code r ∉ RETRYABLE_STATUS →
  1 ≤ attempt → attempt + Z.of_nat k ≤ max_attempts c →
  attempt + Z.of_nat k ≤ 1025 → (k < fuel)%nat →
  ∃ st' evs,
    loop fuel attempt resp st = Some (Ok r, st') ∧
    trace st' = trace st ++ evs ∧
    length (sent_of evs) = S k ∧ length (slept_of evs) = k.
Proof.
  induction k as [|k IH]; intros fuel attempt resp st r Hretry Hlast Hnr
    Ha Hmax Hcap Hfuel.
  - destruct fuel as [|fuel]; [lia|]. rewrite request_loop_S.
    pose proof (Hlast (rq_of st)) as Ho. rewrite Nat.add_0_r in Ho.
    rewrite (iteration_final attempt resp st r Ho Hnr).
    eexists _, [Sent (rq_of st)]. split; [done|]. done.
  - destruct fuel as [|fuel]; [lia|]. rewrite request_loop_S.
    destruct (iteration_retry w c method url params json_body headers idem
                attempt resp st) as (d & st1 & -> & Hu & Hs & Ht).
    { specialize (Hretry 0%nat (rq_of st) ltac:(lia)).
      by rewrite Nat.add_0_r in Hretry. }
    { lia. } { lia. }
    destruct (IH fuel (attempt + 1)
                (resp_after (transport w (send_ix st) (rq_of st)) resp) st1 r)
      as (st' & evs & Hloop & Htr & Hsent & Hslept).
    { intros i rq Hi. rewrite Hs.
      replace (S (send_ix st) + i)%nat with (send_ix st + S i)%nat by lia.
      apply Hretry. lia. }
    { intros rq. rewrite Hs.
      replace (S (send_ix st) + k)%nat with (send_ix st + S k)%nat by lia.
      apply Hlast. }
    { done. } { lia. } { lia. } { lia. } { lia. }
    exists st', ([Sent (rq_of st); Slept d] ++ evs).
    split; [done|].
    rewrite Htr, Ht, <- app_assoc, sent_of_app, slept_of_app. simpl.
    repeat split; auto; lia.
Qed.

End RetryThenStop.

(** X4 — The first answer whose status is outside the retryable set
    ends the call: when the first [k] attempts are retryable (transport
    failures or 429/502/503/504) and attempt [k + 1], still within the
    limit, is answered with any other status (2xx, a non-retryable one, or
    an unknown one such as 500), the call makes exactly [k + 1] attempts,
    sleeps [k] times and returns that response. *)
Theorem request_stops_at_first_final_answer (w : World) (c : SyndigoClient)
    (method path : string) (params json_body : option Any)
    (headers : option (gmap string string)) (idem : option string)
    (st : State) (k : nat) (r : Response) :
  (∀ (i : nat) rq, (i < k)%nat →
     retryable_outcome (transport w (send_ix st + i)%nat rq)) →
  (∀ rq, transport w (send_ix st + k)%nat rq = Responded r) →
  status_code r ∉ RETRYABLE_STATUS →
  Z.of_nat k < max_attempts c → (k ≤ 1024)%nat →
  ∃ st',
    request w c method path params json_body headers idem st = Some (Ok r, st') ∧
    length (new_sent (trace st) (trace st')) = S k ∧
    length (new_slept (trace st) (trace st')) = k.
Proof.
  intros Hretry Hlast Hnr Hk Hcap. unfold request.
  destruct (loop_retry_then_final w c method
              (base_url c +:+ "/" +:+ lstrip slash path)
              params json_body headers idem k
              (Z.to_nat (Z.max 1 (max_attempts c))) 1 None st r)
    as (st' & evs & Hloop & Htr & Hsent & Hslept); try done; try lia.
  exists st'. split; [done|]. split.
  - rewrite (new_sent_app (trace st) (sent_of evs)); [done|].
    by rewrite Htr, sent_of_app.
  - rewrite (new_slept_app (trace st) (slept_of evs)); [done|].
    by rewrite Htr, slept_of_app.
Qed.

Lemma request_stops_at_first_final_answer_witness :
  ∃ st',
    request (sample_world [Failed timeout_exc; Responded (plain 503)]
                          (Responded (plain 500)))
      (sample_client 5) "GET" "/configs" None None None None st0
      = Some (Ok (plain 500), st') ∧
    length (new_sent (trace st0) (trace st')) = 3%nat ∧
    length (new_slept (trace st0) (trace st')) = 2%nat.
Proof.
  apply (request_stops_at_first_final_answer
           (sample_world [Failed timeout_exc; Responded (plain 503)]
                         (Responded (plain 500)))
           (sample_client 5) "GET" "/configs" None None None None st0 2
           (plain 500)).
  - intros [|[|i]] rq Hi; simpl;
      first [exact I | apply retryable_status_spec; simpl; lia | lia].
  - done.
  - rewrite retryable_status_spec. simpl. lia.
  - simpl. lia.
  - lia.
Defined.

(** X5 — When every attempt is retryable and the limit is at most 1025,
    the call uses the whole retry budget: it makes exactly
    [max_attempts] attempts and sleeps [max_attempts - 1] times; it then
    returns the latest response received, or raises the [RuntimeError]
    quoting the last transport exception when no attempt was answered. *)
Theorem request_exhausts_budget (w : World) (c : SyndigoClient)
    (method path : string) (params json_body : option Any)
    (headers : option (gmap string string)) (idem : option string)
    (st : State) :
  1 ≤ max_attempts c ≤ 1025 →
  (∀ i rq, retryable_outcome (transport w i rq)) →
  ∃ res st',
    request w c method path params json_body headers idem st = Some (res, st') ∧
    let reqs := new_sent (trace st) (trace st') in
    let os := outcomes_of w (send_ix st) reqs in
    Z.of_nat (length reqs) = max_attempts c ∧
    Z.of_nat (length (new_slept (trace st) (trace st'))) = max_attempts c - 1 ∧
    match res with
    | Ok r => latest_response os None = Some r
    | Raise e =>
        Forall (λ o, ∃ e0, o = Failed e0) os ∧
        ∃ e0, last os = Some (Failed e0) ∧ e = no_response_exc e0
    end.
Proof.
  intros Hmax Hall.
  destruct (request_total w c method path params json_body headers idem st)
    as [[res st'] Hcall].
  exists res, st'. split; [done|].
  pose proof Hcall as Hrun.
  apply request_loop_run in Hrun
    as (reqs & ds & Htr & Hlen & _ & Hsend & _ & _ & _ & _ & _ & Hres).
  destruct (new_of_alternate _ _ _ _ Htr Hlen) as [-> ->].
  unfold request in Hcall.
  destruct (loop_all_retryable w c method
              (base_url c +:+ "/" +:+ lstrip slash path)
              params json_body headers idem (Z.to_nat (max_attempts c - 1))
              (Z.to_nat (Z.max 1 (max_attempts c))) 1 None st)
    as (rq & resp_last & st2 & evs & Hloop & _ & _ & _ & _ & Hsend2);
    try done; try lia.
  rewrite Hcall in Hloop. injection Hloop as _ <-.
  assert (length reqs = S (Z.to_nat (max_attempts c - 1))) as Hn by lia.
  simpl. split; [lia|]. split; [lia|].
  destruct res as [r|e]; [by destruct Hres|].
  destruct Hres as [(Hlatest & _ & Hexc)|(_ & Hrange & _)]; [|lia].
  split; [|done].
  pose proof (latest_response_spec (outcomes_of w (send_ix st) reqs) None) as Hspec.
  rewrite Hlatest in Hspec. by destruct Hspec.
Qed.

Lemma request_exhausts_budget_witness :
  let w := sample_world [Failed timeout_exc; Responded (plain 429)]
                        (Failed timeout_exc) in
  ∃ res st',
    request w (sample_client 4) "GET" "/configs" None None None None st0
      = Some (res, st') ∧
    let reqs := new_sent (trace st0) (trace st') in
    let os := outcomes_of w (send_ix st0) reqs in
    Z.of_nat (length reqs) = 4 ∧
    Z.of_nat (length (new_slept (trace st0) (trace st'))) = 4 - 1 ∧
    match res with
    | Ok r => latest_response os None = Some r
    | Raise e =>
        Forall (λ o, ∃ e0, o = Failed e0) os ∧
        ∃ e0, last os = Some (Failed e0) ∧ e = no_response_exc e0
    end.
Proof.
  intros w.
  apply (request_exhausts_budget w (sample_client 4) "GET" "/configs"
           None None None None st0).
  - simpl. lia.
  - intros [|[|i]] rq; simpl;
      first [exact I | apply retryable_status_spec; simpl; lia].
Defined.

(** ** What is sent *)

Lemma out_headers_lookup (c : SyndigoClient) (request_id : string)
    (idem : option string) (headers : option (gmap string string)) (k : string) :
  out_headers c request_id idem headers !! k =
  match headers ≫= (.!! k) with
  | Some v => Some v
  | None =>
      if decide (k = "X-Request-ID") then Some request_id
      else stable_headers c idem !! k
  end.
Proof.
  unfold out_headers.
  assert (Hbase : ∀ h1 : gmap string string,
    match headers with Some h => h ∪ h1 | None => h1 end !! k =
    match headers ≫= (.!! k) with
    | Some v => Some v
    | None => h1 !! k
    end).
  { intros h1. destruct headers as [h|]; simpl; [|done].
    rewrite lookup_union. destruct (h !! k); simpl.
    - by destruct (h1 !! k).
    - by destruct (h1 !! k). }
  rewrite Hbase. destruct (headers ≫= _); [done|].
  unfold stable_headers.
  destruct (decide (k = "X-Request-ID")) as [->|Hk].
  { destruct idem as [i|]; [destruct (truthy i)|]; by simplify_map_eq. }
  destruct (decide (k = "Idempotency-Key")) as [->|];
    [destruct idem as [i|]; [destruct (truthy i)|]; by simplify_map_eq|].
  destruct (decide (k = "Accept")) as [->|];
    [destruct idem as [i|]; [destruct (truthy i)|]; by simplify_map_eq|].
  destruct (decide (k = "X-Run-ID")) as [->|];
    [destruct idem as [i|]; [destruct (truthy i)|]; by simplify_map_eq|].
  destruct (decide (k = "User-Agent")) as [->|];
    [destruct idem as [i|]; [destruct (truthy i)|]; by simplify_map_eq|].
  destruct idem as [i|]; [destruct (truthy i)|]; by simplify_map_eq.
Qed.

(** The [i]-th request of a call. *)
Lemma request_attempt (w : World) (c : SyndigoClient)
    (method path : string) (params json_body : option Any)
    (headers : option (gmap string string)) (idem : option string)
    (st : State) (res : result Response) (st' : State) (i : nat) (rq : Request) :
  request w c method path params json_body headers idem st = Some (res, st') →
  new_sent (trace st) (trace st') !! i = Some rq →
  rq = attempt_request c method (base_url c +:+ "/" +:+ lstrip slash path)
         params json_body headers idem (uuid4 w (uuid_ix st + i)%nat).
Proof.
  intros Hcall Hi.
  destruct (request_sent _ _ _ _ _ _ _ _ _ _ _ Hcall) as (n & Hsent & _).
  rewrite Hsent in Hi.
  apply list_lookup_fmap_Some in Hi as (k & -> & Hk).
  by apply lookup_seq in Hk as [-> _].
Qed.

(** X6 — Every attempt of a call sends the same request: the method in
    upper case, the URL [base_url + "/" + path.lstrip("/")], the caller's
    query parameters and body; any two attempts agree on every header
    except X-Request-ID. *)
Theorem request_resends_same_request (w : World) (c : SyndigoClient)
    (method path : string) (params json_body : option Any)
    (headers : option (gmap string string)) (idem : option string)
    (st : State) (res : result Response) (st' : State) :
  request w c method path params json_body headers idem st = Some (res, st') →
  (∀ rq, rq ∈ new_sent (trace st) (trace st') →
     rq_method rq = upper method ∧
     rq_url rq = base_url c +:+ "/" +:+ lstrip slash path ∧
     rq_params rq = params ∧ rq_json rq = json_body) ∧
  (∀ rq1 rq2 k,
     rq1 ∈ new_sent (trace st) (trace st') →
     rq2 ∈ new_sent (trace st) (trace st') →
     k ≠ "X-Request-ID" → rq_headers rq1 !! k = rq_headers rq2 !! k).
Proof.
  intros Hcall. split.
  - intros rq Hrq. apply list_elem_of_lookup_1 in Hrq as [i Hi].
    by rewrite (request_attempt _ _ _ _ _ _ _ _ _ _ _ _ _ Hcall Hi).
  - intros rq1 rq2 k Hrq1 Hrq2 Hk.
    apply list_elem_of_lookup_1 in Hrq1 as [i Hi].
    apply list_elem_of_lookup_1 in Hrq2 as [j Hj].
    rewrite (request_attempt _ _ _ _ _ _ _ _ _ _ _ _ _ Hcall Hi),
      (request_attempt _ _ _ _ _ _ _ _ _ _ _ _ _ Hcall Hj).
    simpl. rewrite !out_headers_lookup.
    destruct (headers ≫= _); [done|]. by rewrite !decide_False.
Qed.

Lemma request_resends_same_request_witness :
  ∃ res st',
    request (sample_world [Responded (plain 503)] (Responded (plain 200)))
      (sample_client 3) "post" "//items" (Some "page=1") (Some "{}")
      (Some {[ "X-Tenant" := "acme" ]}) (Some "key-1") st0 = Some (res, st') ∧
    length (new_sent (trace st0) (trace st')) = 2%nat ∧
    (∀ rq, rq ∈ new_sent (trace st0) (trace st') →
       rq_method rq = "POST" ∧
       rq_url rq = "https://api.example.test/v1/items" ∧
       rq_params rq = Some "page=1" ∧ rq_json rq = Some "{}") ∧
    (∀ rq1 rq2 k,
       rq1 ∈ new_sent (trace st0) (trace st') →
       rq2 ∈ new_sent (trace st0) (trace st') →
       k ≠ "X-Request-ID" → rq_headers rq1 !! k = rq_headers rq2 !! k).
Proof.
  run_request Hcall.
  eexists _, _. split; [reflexivity|].
  split; [vm_compute; reflexivity|].
  apply (request_resends_same_request
           (sample_world [Responded (plain 503)] (Responded (plain 200)))
           (sample_client 3) "post" "//items" (Some "page=1") (Some "{}")
           (Some {[ "X-Tenant" := "acme" ]}) (Some "key-1") st0 _ _ Hcall).
Defined.

(** X7 — The headers of every attempt: an entry of the caller's extra
    headers is sent as the caller gave it (the caller wins on every key,
    the fixed ones included); a key that the caller does not give carries
    the client's value, that is User-Agent, X-Run-ID, [Accept:
    application/json] and the non-empty idempotency key, or the fresh
    trace identifier for X-Request-ID; no other header is sent. *)
Theorem request_headers_sent (w : World) (c : SyndigoClient)
    (method path : string) (params json_body : option Any)
    (headers : option (gmap string string)) (idem : option string)
    (st : State) (res : result Response) (st' : State) :
  request w c method path params json_body headers idem st = Some (res, st') →
  ∀ (i : nat) rq, new_sent (trace st) (trace st') !! i = Some rq →
    (∀ k v, headers ≫= (.!! k) = Some v → rq_headers rq !! k = Some v) ∧
    (headers ≫= (.!! "X-Request-ID") = None →
     rq_headers rq !! "X-Request-ID" = Some (uuid4 w (uuid_ix st + i)%nat)) ∧
    (headers ≫= (.!! "User-Agent") = None →
     rq_headers rq !! "User-Agent" = Some (user_agent c)) ∧
    (headers ≫= (.!! "X-Run-ID") = None →
     rq_headers rq !! "X-Run-ID" = Some (run_id c)) ∧
    (headers ≫= (.!! "Accept") = None →
     rq_headers rq !! "Accept" = Some "application/json") ∧
    (headers ≫= (.!! "Idempotency-Key") = None →
     rq_headers rq !! "Idempotency-Key" =
     match idem with
     | Some key => if truthy key then Some key else None
     | None => None
     end) ∧
    (∀ k, headers ≫= (.!! k) = None →
       k ∉ ["X-Request-ID"; "User-Agent"; "X-Run-ID"; "Accept"; "Idempotency-Key"] →
       rq_headers rq !! k = None).
Proof.
  intros Hcall i rq Hi.
  rewrite (request_attempt _ _ _ _ _ _ _ _ _ _ _ _ _ Hcall Hi). simpl.
  split. { intros k v Hk. by rewrite out_headers_lookup, Hk. }
  split. { intros Hk. by rewrite out_headers_lookup, Hk. }
  split.
  { intros Hk. rewrite out_headers_lookup, Hk. simpl. unfold stable_headers.
    destruct idem as [key|]; [destruct (truthy key)|]; by simplify_map_eq. }
  split.
  { intros Hk. rewrite out_headers_lookup, Hk. simpl. unfold stable_headers.
    destruct idem as [key|]; [destruct (truthy key)|]; by simplify_map_eq. }
  split.
  { intros Hk. rewrite out_headers_lookup, Hk. simpl. unfold stable_headers.
    destruct idem as [key|]; [destruct (truthy key)|]; by simplify_map_eq. }
  split.
  { intros Hk. rewrite out_headers_lookup, Hk. simpl. unfold stable_headers.
    destruct idem as [key|]; [destruct (truthy key)|]; by simplify_map_eq. }
  intros k Hk Hnot. rewrite out_headers_lookup, Hk.
  rewrite !not_elem_of_cons in Hnot.
  destruct Hnot as (? & ? & ? & ? & ? & _).
  rewrite decide_False by done. unfold stable_headers.
  destruct idem as [key|]; [destruct (truthy key)|]; by simplify_map_eq.
Qed.

Lemma request_headers_sent_witness :
  ∃ res st' rq,
    request (sample_world [] (Responded (plain 200)))
      (sample_client 3) "GET" "/configs" None None
      (Some {[ "Accept" := "text/csv"; "X-Tenant" := "acme" ]}) (Some "") st0
      = Some (res, st') ∧
    new_sent (trace st0) (trace st') !! 0%nat = Some rq ∧
    rq_headers rq !! "Accept" = Some "text/csv" ∧
    rq_headers rq !! "X-Tenant" = Some "acme" ∧
    rq_headers rq !! "X-Run-ID" = Some "run-1" ∧
    rq_headers rq !! "Idempotency-Key" = None.
Proof.
  run_request Hcall.
  match type of Hcall with
  | _ = Some (_, ?st') =>
      destruct (new_sent (trace st0) (trace st') !! 0%nat) as [rq|] eqn:Hrq;
        [|vm_compute in Hrq; discriminate]
  end.
  destruct (request_headers_sent
              (sample_world [] (Responded (plain 200)))
              (sample_client 3) "GET" "/configs" None None
              (Some {[ "Accept" := "text/csv"; "X-Tenant" := "acme" ]})
              (Some "") st0 _ _ Hcall 0%nat rq Hrq)
    as (Hcaller & _ & _ & Hrun & _ & Hidem & _).
  eexists _, _, rq. split; [reflexivity|]. split; [exact Hrq|].
  split; [by apply Hcaller|]. split; [by apply Hcaller|].
  split; [by apply Hrun|]. by apply Hidem.
Defined.

(** ** The method and the per-verb entry points *)

Lemma request_loop_method (w : World) (c : SyndigoClient) (m1 m2 url : string)
    (params json_body : option Any) (headers : option (gmap string string))
    (idem : option string) (fuel : nat) :
  upper m1 = upper m2 →
  ∀ attempt resp st,
    request_loop w fuel c m1 url params json_body headers idem attempt resp st =
    request_loop w fuel c m2 url params json_body headers idem attempt resp st.
Proof.
  intros Hm. induction fuel as [|fuel IH]; intros attempt resp st; [done|].
  rewrite !request_loop_S.
  assert (iteration w c m1 url params json_body headers idem attempt resp st =
          iteration w c m2 url params json_body headers idem attempt resp st)
    as ->.
  { unfold iteration, attempt_request. by rewrite Hm. }
  destruct (iteration w c m2 url params json_body headers idem attempt resp st)
    as [[[r|resp']|e] st']; try done.
Qed.

(** X8 — The method reaches the transport in upper case only: two
    spellings of a method that agree after [upper()] give the same call.
    Each per-verb entry point is [request] with its verb, so a call of
    [request] with the verb in any letter case behaves as the entry
    point, and every request of [get], [post], [put], [patch], [delete]
    carries the method GET, POST, PUT, PATCH, DELETE. *)
Theorem verb_entry_points (w : World) (c : SyndigoClient) (path : string)
    (params json_body : option Any) (headers : option (gmap string string))
    (idem : option string) (st : State)
    (verb : string)
    (f : string → option Any → option Any → option (gmap string string) →
         option string → State → option (result Response * State)) :
  (verb, f) ∈ [("GET", Client.get w c); ("POST", Client.post w c);
               ("PUT", Client.put w c); ("PATCH", Client.patch w c);
               ("DELETE", Client.delete w c)] →
  (∀ m, upper m = verb →
     request w c m path params json_body headers idem st =
     f path params json_body headers idem st) ∧
  (∀ res st',
     f path params json_body headers idem st = Some (res, st') →
     ∀ rq, rq ∈ new_sent (trace st) (trace st') → rq_method rq = verb).
Proof.
  intros Hin.
  assert (upper verb = verb ∧
          f = (λ p, request w c verb p)) as [Hup ->].
  { rewrite !elem_of_cons in Hin.
    destruct Hin as [[= -> ->]|[[= -> ->]|[[= -> ->]|[[= -> ->]|[[= -> ->]|Hin]]]]];
      [done..|]. by apply elem_of_nil in Hin. }
  split.
  - intros m Hm. unfold request. apply request_loop_method. by rewrite Hup.
  - intros res st' Hcall rq Hrq.
    apply list_elem_of_lookup_1 in Hrq as [i Hi].
    rewrite (request_attempt _ _ _ _ _ _ _ _ _ _ _ _ _ Hcall Hi). simpl. done.
Qed.

Lemma verb_entry_points_witness :
  let w := sample_world [Responded (plain 503)] (Responded (plain 204)) in
  request w (sample_client 3) "delete" "/items/7" None None None None st0 =
  Client.delete w (sample_client 3) "/items/7" None None None None st0 ∧
  ∃ res st',
    Client.delete w (sample_client 3) "/items/7" None None None None st0
      = Some (res, st') ∧
    length (new_sent (trace st0) (trace st')) = 2%nat ∧
    ∀ rq, rq ∈ new_sent (trace st0) (trace st') → rq_method rq = "DELETE".
Proof.
  intros w.
  destruct (verb_entry_points w (sample_client 3) "/items/7" None None None None
              st0 "DELETE" (Client.delete w (sample_client 3)))
    as [Hsame Hverb].
  { rewrite !elem_of_cons. do 4 right. by left. }
  split; [by apply Hsame|].
  unfold Client.delete in *. run_request Hcall.
  eexists _, _. split; [reflexivity|].
  split; [vm_compute; reflexivity|].
  by eapply Hverb.
Defined.

(** ** The URL *)

Lemma append_nil_l (s : string) : "" +:+ s = s.
Proof. reflexivity. Qed.

Lemma append_cons (a : ascii) (s t : string) :
  String a s +:+ t = String a (s +:+ t).
Proof. reflexivity. Qed.

Lemma append_not_empty (s t : string) : t ≠ "" → s +:+ t ≠ "".
Proof.
  destruct s; [by rewrite append_nil_l|]. rewrite append_cons. discriminate.
Qed.

(** [s.rstrip(c)] takes copies of [c] from the end of [s], and all of
    them. *)
Lemma rstrip_spec (c : ascii) (s : string) :
  (∃ n, s = rstrip c s +:+ repeat_char c n) ∧
  (∀ t, rstrip c s ≠ t +:+ String c "").
Proof.
  induction s as [|a s [[n Hn] Hend]]; simpl.
  { split; [by exists 0%nat|]. intros t. symmetry. by apply append_not_empty. }
  destruct (rstrip c s) as [|b t0] eqn:Hr.
  - rewrite append_nil_l in Hn. destruct (Ascii.eqb_spec a c) as [->|Hac].
    + split; [exists (S n); rewrite append_nil_l; simpl; by rewrite Hn|].
      intros t. symmetry. by apply append_not_empty.
    + split; [exists n; rewrite append_cons, append_nil_l; by rewrite Hn|].
      intros [|a' t]; rewrite ?append_nil_l, ?append_cons; [congruence|].
      intros [= _ H]. by apply (append_not_empty t (String c "")).
  - split; [exists n; rewrite append_cons; by rewrite Hn at 1|].
    intros [|a' t]; rewrite ?append_nil_l, ?append_cons; [discriminate|].
    intros [= _ H]. by apply (Hend t).
Qed.

(** [s.lstrip(c)] takes copies of [c] from the start of [s], and all of
    them. *)
Lemma lstrip_spec (c : ascii) (s : string) :
  (∃ n, s = repeat_char c n +:+ lstrip c s) ∧
  (∀ t, lstrip c s ≠ String c t).
Proof.
  induction s as [|a s [[n Hn] Hstart]]; simpl.
  { split; [by exists 0%nat|]. done. }
  destruct (Ascii.eqb_spec a c) as [->|Hac].
  - split; [exists (S n); simpl; rewrite append_cons; by rewrite <- Hn|]. done.
  - split; [by exists 0%nat|]. intros t [= ? _]. done.
Qed.

(** X9 — The URL of a client built by the constructor: the slashes at
    the end of the base address and at the start of the path are all
    dropped and one slash is put between the two, so that the URL sent on
    every attempt is [b + "/" + p] where [b] is the base address without
    its trailing slashes and [p] the path without its leading ones. *)
Theorem url_joined_by_one_slash (w : World) (base_url0 : string)
    (run_id0 : option string) (m : Z) (ua : string) (st0' : State)
    (c : SyndigoClient) (st1 : State)
    (method path : string) (params json_body : option Any)
    (headers : option (gmap string string)) (idem : option string)
    (st : State) (res : result Response) (st' : State) :
  init w base_url0 run_id0 m ua st0' = (Ok c, st1) →
  request w c method path params json_body headers idem st = Some (res, st') →
  ∃ (n k : nat) (p : string),
    base_url0 = base_url c +:+ repeat_char slash n ∧
    path = repeat_char slash k +:+ p ∧
    (∀ t, base_url c ≠ t +:+ "/") ∧
    (∀ t, p ≠ String slash t) ∧
    ∀ rq, rq ∈ new_sent (trace st) (trace st') →
      rq_url rq = base_url c +:+ "/" +:+ p.
Proof.
  intros Hinit Hcall.
  assert (base_url c = rstrip slash base_url0) as Hbase.
  { unfold init, mbind, M_bind in Hinit.
    destruct (match run_id0 with
              | Some r => if truthy r then mret r else draw_uuid4 w
              | None => draw_uuid4 w
              end st0') as [[rid|e] st2]; [|done].
    by injection Hinit as <- _. }
  destruct (rstrip_spec slash base_url0) as [[n Hn] Hend].
  destruct (lstrip_spec slash path) as [[k Hk] Hstart].
  exists n, k, (lstrip slash path). rewrite Hbase.
  repeat (split; [done|]).
  intros rq Hrq. apply list_elem_of_lookup_1 in Hrq as [i Hi].
  rewrite (request_attempt _ _ _ _ _ _ _ _ _ _ _ _ _ Hcall Hi). simpl.
  by rewrite Hbase.
Qed.

Lemma url_joined_by_one_slash_witness :
  let w := sample_world [] (Responded (plain 200)) in
  let c := mkClient "https://api.example.test/v1" "run-7" 3 "ua/1.0" in
  ∃ res st',
    init w "https://api.example.test/v1//" (Some "run-7") 3 "ua/1.0" st0
      = (Ok c, st0) ∧
    request w c "GET" "//configs/" None None None None st0 = Some (res, st') ∧
    ∀ rq, rq ∈ new_sent (trace st0) (trace st') →
      rq_url rq = "https://api.example.test/v1/configs/".
Proof.
  intros w c.
  assert (init w "https://api.example.test/v1//" (Some "run-7") 3 "ua/1.0" st0
          = (Ok c, st0)) as Hinit by reflexivity.
  run_request Hcall.
  eexists _, _. split; [done|]. split; [reflexivity|].
  destruct (url_joined_by_one_slash w "https://api.example.test/v1//"
              (Some "run-7") 3 "ua/1.0" st0 c st0 "GET" "//configs/"
              None None None None st0 _ _ Hinit Hcall)
    as (n & k & p & _ & Hpath & _ & Hstart & Hurl).
  assert (p = "configs/") as ->.
  { destruct k as [|[|[|k]]]; simpl in Hpath;
      rewrite ?append_cons, ?append_nil_l in Hpath.
    - subst p. by destruct (Hstart "/configs/").
    - injection Hpath as <-. by destruct (Hstart "configs/").
    - by injection Hpath as <-.
    - discriminate. }
  intros rq Hrq. by rewrite (Hurl rq Hrq).
Defined.

(** ** The constructor *)


(** ** A Retry-After value that is too large *)

(** X11 — A Retry-After value that [float()] reads but whose number of
    milliseconds is infinite (such as [inf], or a value that overflows
    when multiplied by 1000) does not stop the call: the [OverflowError]
    of [int()] is caught, the response is kept, and the attempt is
    treated as retryable without a hint.  Below the limit the client
    sleeps the jittered exponential delay and tries again; at the limit
    it returns the response. *)
Theorem retry_after_overflow_is_no_hint (w : World) (c : SyndigoClient)
    (method url : string) (params json_body : option Any)
    (headers : option (gmap string string)) (idem : option string)
    (attempt : Z) (resp0 : option Response) (st : State) (r : Response)
    (ra : string) (x : spec_float) (s : bool) :
  let rq := attempt_request c method url params json_body headers idem
              (uuid4 w (uuid_ix st)) in
  transport w (send_ix st) rq = Responded r →
  status_code r ∈ RETRYABLE_STATUS →
  headers_get (resp_headers r) "Retry-After" = Some ra → ra ≠ "" →
  float_of_str w ra = Some x →
  F64.mul x f1000 = S754_infinity s →
  (attempt < max_attempts c →
   ∀ exp, backoff_exp attempt f0_5 f4_0 = Ok exp →
     iteration w c method url params json_body headers idem attempt resp0 st =
       (Ok (Again (Some r)),
        slept_state (drawn_state (sent_state (uuid_state st) rq))
          (jitter exp (random w (rand_ix st))))) ∧
  (max_attempts c ≤ attempt →
   iteration w c method url params json_body headers idem attempt resp0 st =
     (Ok (Stop r), sent_state (uuid_state st) rq)).
Proof.
  intros rq Ho Hstatus Hra Hne Hx Hinf.
  assert (try_exit w (Responded r) resp0 =
          FallThrough (Some r) (Some (status_code r))
            (Some (PyExc OverflowError "cannot convert float infinity to integer"))
            0) as Hexit.
  { unfold try_exit, retry_after_ms_of.
    rewrite bool_decide_eq_true_2 by done. rewrite Hra.
    destruct ra as [|a ra']; [done|]. simpl. rewrite Hx, Hinf. simpl. done. }
  split.
  - intros Hlt exp Hexp. rewrite iteration_eq. fold rq. rewrite Ho, Hexit.
    rewrite retry_decision_retry by done.
    rewrite next_delay_backoff by lia. rewrite Hexp. done.
  - intros Hge. rewrite iteration_eq. fold rq. rewrite Ho, Hexit.
    by rewrite retry_decision_stop by auto.
Qed.

Lemma retry_after_overflow_is_no_hint_witness :
  let w := sample_world [] (Responded (with_retry_after 503 "inf")) in
  let c := sample_client 2 in
  let rq := attempt_request c "GET" "https://api.example.test/v1/configs"
              None None None None (sample_uuid 0) in
  iteration w c "GET" "https://api.example.test/v1/configs" None None None None
    1 None st0 =
    (Ok (Again (Some (with_retry_after 503 "inf"))),
     slept_state (drawn_state (sent_state (uuid_state st0) rq))
       (jitter (default_exp 1) f0_5)) ∧
  iteration w c "GET" "https://api.example.test/v1/configs" None None None None
    2 None st0 =
    (Ok (Stop (with_retry_after 503 "inf")), sent_state (uuid_state st0) rq).
Proof.
  intros w c rq.
  destruct (retry_after_overflow_is_no_hint w c "GET"
              "https://api.example.test/v1/configs" None None None None
              1 None st0 (with_retry_after 503 "inf") "inf"
              (S754_infinity false) false) as [Hretry _].
  { reflexivity. }
  { apply retryable_status_spec. simpl. lia. }
  { reflexivity. } { done. } { reflexivity. } { reflexivity. }
  destruct (retry_after_overflow_is_no_hint w c "GET"
              "https://api.example.test/v1/configs" None None None None
              2 None st0 (with_retry_after 503 "inf") "inf"
              (S754_infinity false) false) as [_ Hstop].
  { reflexivity. }
  { apply retryable_status_spec. simpl. lia. }
  { reflexivity. } { done. } { reflexivity. } { reflexivity. }
  split.
  - apply Hretry; [simpl; lia|]. apply backoff_exp_table. lia.
  - apply Hstop. simpl. lia.
Defined.

(** ** Environment variables *)

(** X12 — [_env] with [required=True] returns a non-empty string or
    raises [RuntimeError("Missing env var: <name>")]: it raises exactly
    when the variable is set to the empty string, or is unset and the
    default is [None] or empty.  The default is only read when the
    variable is unset, so a variable set to the empty string is an error
    even with a non-empty default.  With [required=False] nothing is
    raised and the value of [os.getenv] is returned as it is. *)
Theorem env_required_or_raises (environ : gmap string string) (name : string)
    (default : option string) :
  (∀ v, _env environ name true default = Ok v ↔
        ∃ s, v = Some s ∧ s ≠ "" ∧
             (environ !! name = Some s ∨
              (environ !! name = None ∧ default = Some s))) ∧
  (∀ e, _env environ name true default = Raise e ↔
        e = PyExc RuntimeError ("Missing env var: " +:+ name) ∧
        (environ !! name = Some "" ∨
         (environ !! name = None ∧ (default = None ∨ default = Some "")))) ∧
  _env environ name false default = Ok (getenv environ name default).
Proof.
  unfold _env, getenv.
  destruct (environ !! name) as [[|a s]|] eqn:Hn; simpl.
  - split; [|split; [|done]].
    + intros v. split; [done|]. intros (s & _ & Hs & [[= <-]|[? _]]); done.
    + intros e. split.
      * intros [= <-]. split; [done|]. by left.
      * by intros [-> _].
  - split; [|split; [|done]].
    + intros v. split.
      * intros [= <-]. eexists. split; [done|]. split; [done|]. by left.
      * intros (s' & -> & _ & [[= <-]|[? _]]); done.
    + intros e. split; [done|]. intros [_ [?|[? _]]]; done.
  - destruct default as [[|a s]|]; simpl.
    + split; [|split; [|done]].
      * intros v. split; [done|].
        intros (s & _ & Hs & [?|[_ [= <-]]]); done.
      * intros e. split.
        -- intros [= <-]. split; [done|]. right. split; [done|]. by right.
        -- by intros [-> _].
    + split; [|split; [|done]].
      * intros v. split.
        -- intros [= <-]. eexists. split; [done|]. split; [done|]. by right.
        -- intros (s' & -> & _ & [?|[_ [= <-]]]); done.
      * intros e. split; [done|]. intros [_ [?|[_ [?|?]]]]; done.
    + split; [|split; [|done]].
      * intros v. split; [done|]. intros (s & _ & _ & [?|[_ ?]]); done.
      * intros e. split.
        -- intros [= <-]. split; [done|]. right. split; [done|]. by left.
        -- by intros [-> _].
Qed.
